(** * Inter-AI Protocol SDK (sdk/src/index.ts): a shallow embedding in Rocq

    The SDK manipulates untyped JavaScript values.  They are modelled by
    [jsval]: the JSON-shaped values the SDK receives and builds, plus
    [undefined].  An object is its ordered list of own properties (insertion
    order, the order [JSON.stringify] emits them in).  Property reads follow
    ECMAScript [[Get]] on these values; reading a property of [null] or
    [undefined] raises a TypeError.  Prototype properties are not modelled:
    none of the keys the SDK reads ([iap_version], [task_id], [sender],
    [agent_id], [task], [intent], [delivery], [method], [webhook], [email],
    [output], [format], [on_failure], [action]) is a member of
    Object.prototype, Array.prototype or String.prototype.

    Numbers: the code only asks whether a number is truthy (0 and NaN are
    falsy) and, when serialising, whether it is finite (NaN and the
    infinities become [null]).  Finite numbers are modelled by their integer
    value [Fin z]; NaN and the two infinities are kept apart. *)

From Stdlib Require Import String Ascii List ZArith Bool Lia.
Import ListNotations.
Set Warnings "-register-all".
Open Scope string_scope.
Open Scope list_scope.

(** ** JavaScript values *)

Inductive number : Type :=
| Fin (z : Z)
| NaN
| PosInf
| NegInf.

Inductive jsval : Type :=
| JUndefined
| JNull
| JBool (b : bool)
| JNum (n : number)
| JStr (s : string)
| JArr (l : list jsval)
| JObj (o : list (string * jsval)).

(** A plain object: its own properties in insertion order. *)
Definition obj : Type := list (string * jsval).

(** Exceptions thrown by the code: the engine's TypeError and [new Error]. *)
Inductive exn : Type :=
| TypeError (msg : string)
| Error (msg : string).

(** Computations that may throw. *)
Inductive result (A : Type) : Type :=
| Ok (a : A)
| Throw (e : exn).
Arguments Ok {A} a.
Arguments Throw {A} e.

Definition bind {A B} (m : result A) (k : A -> result B) : result B :=
  match m with
  | Ok a => k a
  | Throw e => Throw e
  end.

Notation "x <- m ;; k" := (bind m (fun x => k))
  (at level 61, m at next level, right associativity).

(** The double-quote and newline characters, as one-character strings. *)
Definition dq : string := String (ascii_of_nat 34) EmptyString.
Definition nl : string := String (ascii_of_nat 10) EmptyString.

(** [typeof v] *)
Definition typeof (v : jsval) : string :=
  match v with
  | JUndefined => "undefined"
  | JNull => "object"
  | JBool _ => "boolean"
  | JNum _ => "number"
  | JStr _ => "string"
  | JArr _ => "object"
  | JObj _ => "object"
  end.

(** ToBoolean: [!!v]. *)
Definition truthy (v : jsval) : bool :=
  match v with
  | JUndefined | JNull => false
  | JBool b => b
  | JNum (Fin z) => negb (Z.eqb z 0)
  | JNum NaN => false
  | JNum _ => true
  | JStr s => negb (String.eqb s "")
  | JArr _ | JObj _ => true
  end.

(** [v === s] for a string literal [s] (also SameValueZero, used by
    [Array.prototype.includes]). *)
Definition is_str (v : jsval) (s : string) : bool :=
  match v with
  | JStr s' => String.eqb s' s
  | _ => false
  end.

Definition is_undefined (v : jsval) : bool :=
  match v with JUndefined => true | _ => false end.

(** [list.includes(v)] on a list of string literals. *)
Definition includes (l : list string) (v : jsval) : bool :=
  existsb (is_str v) l.

(** First own property named [k] of an object. *)
Fixpoint lookup (o : obj) (k : string) : option jsval :=
  match o with
  | [] => None
  | (k', v) :: o' => if String.eqb k' k then Some v else lookup o' k
  end.

(** Canonical array index: the decimal numeral of a nat, without leading
    zeros. *)
Fixpoint digits_value (s : string) (acc : nat) : option nat :=
  match s with
  | EmptyString => Some acc
  | String c s' =>
      let n := nat_of_ascii c in
      if (48 <=? n)%nat && (n <=? 57)%nat then digits_value s' (acc * 10 + (n - 48))%nat
      else None
  end.

Definition array_index (k : string) : option nat :=
  match k with
  | EmptyString => None
  | String c s' =>
      if Ascii.eqb c "0"%char then
        match s' with EmptyString => Some 0 | _ => None end
      else digits_value k 0
  end.

(** [v[k]] ([[Get]]), throwing the engine's TypeError on null/undefined. *)
Definition get (v : jsval) (k : string) : result jsval :=
  match v with
  | JUndefined =>
      Throw (TypeError ("Cannot read properties of undefined (reading '" ++ k ++ "')")%string)
  | JNull =>
      Throw (TypeError ("Cannot read properties of null (reading '" ++ k ++ "')")%string)
  | JBool _ | JNum _ => Ok JUndefined
  | JStr s =>
      if String.eqb k "length" then Ok (JNum (Fin (Z.of_nat (String.length s))))
      else match array_index k with
           | Some i => match String.get i s with
                       | Some c => Ok (JStr (String c EmptyString))
                       | None => Ok JUndefined
                       end
           | None => Ok JUndefined
           end
  | JArr l =>
      if String.eqb k "length" then Ok (JNum (Fin (Z.of_nat (List.length l))))
      else match array_index k with
           | Some i => Ok (nth i l JUndefined)
           | None => Ok JUndefined
           end
  | JObj o => match lookup o k with Some x => Ok x | None => Ok JUndefined end
  end.

(** ** Validation (index.ts, [validate] and [isValid]) *)

Record IAPValidationError : Type := mkError {
  path : string;
  message : string
}.

Definition err_not_object := mkError "" "Task must be an object".
Definition err_version := mkError "iap_version" ("Must be " ++ dq ++ "0.2" ++ dq)%string.
Definition err_task_id := mkError "task_id" "Required string".
Definition err_sender := mkError "sender" "Required object".
Definition err_agent_id := mkError "sender.agent_id" "Required string".
Definition err_task := mkError "task" "Required object".
Definition err_intent := mkError "task.intent" "Required string".
Definition err_delivery := mkError "delivery" "Must be an object".
Definition err_method := mkError "delivery.method"
  ("Must be " ++ dq ++ "sync" ++ dq ++ ", " ++ dq ++ "async" ++ dq ++ ", or "
   ++ dq ++ "email" ++ dq)%string.
Definition err_webhook := mkError "delivery.webhook" "Required for async delivery".
Definition err_email := mkError "delivery.email" "Required for email delivery".
Definition err_output := mkError "output" "Must be an object".
Definition err_format := mkError "output.format"
  "Must be markdown, json, yaml, code, or freeform".
Definition err_on_failure := mkError "on_failure" "Must be an object".
Definition err_action := mkError "on_failure.action"
  "Must be return_partial, retry, escalate, or abort".

Definition validMethods := ["sync"; "async"; "email"].
Definition validFormats := ["markdown"; "json"; "yaml"; "code"; "freeform"].
Definition validActions := ["return_partial"; "retry"; "escalate"; "abort"].

(** [errors.push(e)] *)
Definition push (errors : list IAPValidationError) (e : IAPValidationError) :=
  errors ++ [e].

Definition pushif (c : bool) errors e := if c then push errors e else errors.

(** [typeof x !== 'string' || !x] *)
Definition not_nonempty_string (x : jsval) : bool :=
  negb (String.eqb (typeof x) "string") || negb (truthy x).

(** [!x || typeof x !== 'object'] *)
Definition not_object (x : jsval) : bool :=
  negb (truthy x) || negb (String.eqb (typeof x) "object").

(** The blocks of [validate], in source order; each reads its field of the
    candidate [t] and appends to [errors]. *)

(* Required: iap_version *)
Definition check_iap_version (t : jsval) (errors : list IAPValidationError) :=
  v <- get t "iap_version" ;;
  Ok (pushif (negb (is_str v "0.2")) errors err_version).

(* Required: task_id *)
Definition check_task_id (t : jsval) (errors : list IAPValidationError) :=
  tid <- get t "task_id" ;;
  Ok (pushif (not_nonempty_string tid) errors err_task_id).

(* Required: sender *)
Definition check_sender (t : jsval) (errors : list IAPValidationError) :=
  sender <- get t "sender" ;;
  if not_object sender then Ok (push errors err_sender)
  else aid <- get sender "agent_id" ;;
       Ok (pushif (not_nonempty_string aid) errors err_agent_id).

(* Required: task *)
Definition check_task (t : jsval) (errors : list IAPValidationError) :=
  tk <- get t "task" ;;
  if not_object tk then Ok (push errors err_task)
  else intent <- get tk "intent" ;;
       Ok (pushif (not_nonempty_string intent) errors err_intent).

(* Optional: delivery *)
Definition check_delivery (t : jsval) (errors : list IAPValidationError) :=
  delivery <- get t "delivery" ;;
  if is_undefined delivery then Ok errors
  else if negb (String.eqb (typeof delivery) "object") then Ok (push errors err_delivery)
  else method <- get delivery "method" ;;
       let errors := pushif (negb (includes validMethods method)) errors err_method in
       errors <- (if is_str method "async"
                  then webhook <- get delivery "webhook" ;;
                       Ok (pushif (negb (truthy webhook)) errors err_webhook)
                  else Ok errors) ;;
       method <- get delivery "method" ;;
       if is_str method "email"
       then email <- get delivery "email" ;;
            Ok (pushif (negb (truthy email)) errors err_email)
       else Ok errors.

(* Optional: output *)
Definition check_output (t : jsval) (errors : list IAPValidationError) :=
  output <- get t "output" ;;
  if is_undefined output then Ok errors
  else if negb (String.eqb (typeof output) "object") then Ok (push errors err_output)
  else format <- get output "format" ;;
       Ok (pushif (negb (includes validFormats format)) errors err_format).

(* Optional: on_failure *)
Definition check_on_failure (t : jsval) (errors : list IAPValidationError) :=
  onFailure <- get t "on_failure" ;;
  if is_undefined onFailure then Ok errors
  else if negb (String.eqb (typeof onFailure) "object") then Ok (push errors err_on_failure)
  else action <- get onFailure "action" ;;
       Ok (pushif (negb (includes validActions action)) errors err_action).

Definition validate (task : jsval) : result (list IAPValidationError) :=
  if not_object task then Ok [err_not_object] else
  let t := task in
  errors <- check_iap_version t [] ;;
  errors <- check_task_id t errors ;;
  errors <- check_sender t errors ;;
  errors <- check_task t errors ;;
  errors <- check_delivery t errors ;;
  errors <- check_output t errors ;;
  errors <- check_on_failure t errors ;;
  Ok errors.

(** [isValid(task)]: [validate(task).length === 0]. *)
Definition isValid (task : jsval) : result bool :=
  errs <- validate task ;; Ok (Nat.eqb (List.length errs) 0).

(** ** Object literals with spread *)

(** CreateDataProperty on an ordered object: an existing key keeps its
    position and takes the new value; a new key is appended. *)
Fixpoint obj_set (o : obj) (k : string) (v : jsval) : obj :=
  match o with
  | [] => [(k, v)]
  | (k', v') :: o' => if String.eqb k' k then (k', v) :: o' else (k', v') :: obj_set o' k v
  end.

(** [{ ...o }]: copies the own properties of [o], in order. *)
Definition spread_into (acc : obj) (o : obj) : obj :=
  fold_left (fun acc kv => obj_set acc (fst kv) (snd kv)) o acc.

(** [{ ...x }] for an optional object ([{...undefined}] is [{}]). *)
Definition spread (x : option obj) : obj :=
  match x with Some o => spread_into [] o | None => [] end.

(** An optional string argument, [undefined] when omitted. *)
Definition ostr (x : option string) : jsval :=
  match x with Some s => JStr s | None => JUndefined end.

Definition oobj (x : option obj) : jsval :=
  match x with Some o => JObj o | None => JUndefined end.

(** ** Document factory (index.ts, [createTask]) *)

Record CreateTaskOptions : Type := mkCreateTaskOptions {
  opt_task_id : option string;
  opt_sender : obj;
  opt_delivery : option obj;
  opt_task : obj;
  opt_constraints : option obj;
  opt_success_criteria : option (list string);
  opt_output : option obj;
  opt_on_failure : option obj
}.

(** [generated_id] is the value [generateTaskId()] returns at the call
    (it reads [Date.now()] and [Math.random()]); it is used only when no
    [task_id] is given. *)
Definition createTask (options : CreateTaskOptions) (generated_id : string) : jsval :=
  JObj [("iap_version", JStr "0.2");
        ("task_id", JStr (match opt_task_id options with
                          | Some id => id
                          | None => generated_id
                          end));
        ("sender", JObj (opt_sender options));
        ("delivery", oobj (opt_delivery options));
        ("task", JObj (opt_task options));
        ("constraints", oobj (opt_constraints options));
        ("success_criteria",
           match opt_success_criteria options with
           | Some l => JArr (map JStr l)
           | None => JUndefined
           end);
        ("output", oobj (opt_output options));
        ("on_failure", oobj (opt_on_failure options))].

(** ** Builder (index.ts, class [TaskBuilder]) *)

Module TaskBuilder.

Record t : Type := mk {
  _taskId : option string;
  _sender : option obj;
  _delivery : option obj;
  _task : option obj;
  _constraints : option obj;
  _successCriteria : option (list string);
  _output : option obj;
  _onFailure : option obj
}.

(** [new TaskBuilder()] *)
Definition empty : t := mk None None None None None None None None.

Definition set_sender b x := mk b.(_taskId) x b.(_delivery) b.(_task) b.(_constraints)
  b.(_successCriteria) b.(_output) b.(_onFailure).
Definition set_delivery b x := mk b.(_taskId) b.(_sender) x b.(_task) b.(_constraints)
  b.(_successCriteria) b.(_output) b.(_onFailure).
Definition set_task b x := mk b.(_taskId) b.(_sender) b.(_delivery) x b.(_constraints)
  b.(_successCriteria) b.(_output) b.(_onFailure).
Definition set_constraints b x := mk b.(_taskId) b.(_sender) b.(_delivery) b.(_task) x
  b.(_successCriteria) b.(_output) b.(_onFailure).
Definition set_successCriteria b x := mk b.(_taskId) b.(_sender) b.(_delivery) b.(_task)
  b.(_constraints) x b.(_output) b.(_onFailure).
Definition set_output b x := mk b.(_taskId) b.(_sender) b.(_delivery) b.(_task)
  b.(_constraints) b.(_successCriteria) x b.(_onFailure).
Definition set_onFailure b x := mk b.(_taskId) b.(_sender) b.(_delivery) b.(_task)
  b.(_constraints) b.(_successCriteria) b.(_output) x.


Definition from (b : t) (agentId : string) (email framework : option string) : t :=
  set_sender b (Some [("agent_id", JStr agentId); ("email", ostr email);
                      ("framework", ostr framework)]).

Definition sender (b : t) (s : obj) : t := set_sender b (Some s).

Definition intent (b : t) (i : string) : t :=
  set_task b (Some (obj_set (spread b.(_task)) "intent" (JStr i))).
Definition details (b : t) (d : string) : t :=
  set_task b (Some (obj_set (spread b.(_task)) "details" (JStr d))).
Definition context (b : t) (c : string) : t :=
  set_task b (Some (obj_set (spread b.(_task)) "context" (JStr c))).
Definition contextRef (b : t) (ref : string) : t :=
  set_task b (Some (obj_set (spread b.(_task)) "context_ref" (JStr ref))).
Definition task (b : t) (tk : obj) : t := set_task b (Some tk).

Definition delivery (b : t) (d : obj) : t := set_delivery b (Some d).

Definition timeLimit (b : t) (limit : string) : t :=
  set_constraints b (Some (obj_set (spread b.(_constraints)) "time_limit" (JStr limit))).
Definition tokenBudget (b : t) (budget : number) : t :=
  set_constraints b (Some (obj_set (spread b.(_constraints)) "token_budget" (JNum budget))).
Definition toolsAllowed (b : t) (tools : list string) : t :=
  set_constraints b (Some (obj_set (spread b.(_constraints)) "tools_allowed"
                                   (JArr (map JStr tools)))).
Definition toolsDenied (b : t) (tools : list string) : t :=
  set_constraints b (Some (obj_set (spread b.(_constraints)) "tools_denied"
                                   (JArr (map JStr tools)))).
Definition scope (b : t) (s : string) : t :=
  set_constraints b (Some (obj_set (spread b.(_constraints)) "scope" (JStr s))).
Definition requiresCapabilities (b : t) (caps : list string) : t :=
  set_constraints b (Some (obj_set (spread b.(_constraints)) "requires_capabilities"
                                   (JArr (map JStr caps)))).
Definition constraints (b : t) (c : obj) : t := set_constraints b (Some c).

Definition successCriteria (b : t) (criteria : list string) : t :=
  set_successCriteria b (Some criteria).
Definition addCriterion (b : t) (criterion : string) : t :=
  set_successCriteria b (Some (match b.(_successCriteria) with
                               | Some l => l
                               | None => []
                               end ++ [criterion])).

Definition outputFormat (b : t) (format : string) (schema : option string) : t :=
  set_output b (Some [("format", JStr format); ("schema", ostr schema)]).
Definition deliverTo (b : t) (location : string) : t :=
  set_output b (Some (obj_set (spread b.(_output)) "deliver_to" (JStr location))).
Definition output (b : t) (o : obj) : t := set_output b (Some o).

(** [onFailure(action, options?)]: [{ action, ...options }]. *)
Definition onFailure (b : t) (action : string) (options : option obj) : t :=
  set_onFailure b (Some (spread_into [("action", JStr action)]
                           (match options with Some o => o | None => [] end))).

Definition sender_required := "Sender is required - call from() or sender()".
Definition intent_required := "Task intent is required - call intent() or task()".

(** [this._task?.intent] *)
Definition task_intent (b : t) : jsval :=
  match b.(_task) with
  | Some tk => match lookup tk "intent" with Some v => v | None => JUndefined end
  | None => JUndefined
  end.

(** [build()]; [generated_id] as for [createTask]. *)
Definition build (b : t) (generated_id : string) : result jsval :=
  match b.(_sender) with
  | None => Throw (Error sender_required)
  | Some s =>
      if negb (truthy (task_intent b)) then Throw (Error intent_required)
      else match b.(_task) with
           | None => Throw (Error intent_required)
           | Some tk =>
               Ok (createTask (mkCreateTaskOptions b.(_taskId) s b.(_delivery) tk
                                 b.(_constraints) b.(_successCriteria) b.(_output)
                                 b.(_onFailure)) generated_id)
           end
  end.

End TaskBuilder.

(** ** Result factory (index.ts, [createResult]) *)




(** ** The host JSON codec ([JSON.stringify] / [JSON.parse])

    A JSON text is modelled after lexing, as its sequence of lexemes:
    punctuation, literals, and runs of whitespace ([TWs]).  String escapes
    and number spelling are below this level.  Whitespace is where the
    pretty and the compact serialisation differ. *)

Inductive token : Type :=
| TLBrace | TRBrace | TLBracket | TRBracket | TColon | TComma
| TString (s : string)
| TNumber (z : Z)
| TTrue | TFalse | TNull
| TWs (s : string).

Definition text : Type := list token.

Fixpoint join (sep : list token) (parts : list (list token)) : list token :=
  match parts with
  | [] => []
  | [p] => p
  | p :: ps => p ++ sep ++ join sep ps
  end.

(** The bracketing of SerializeJSONArray / SerializeJSONObject: [partial]
    are the serialised members, [stepback] the enclosing indentation. *)
Definition wrap (op cl : token) (gap stepback : string) (partial : list (list token))
  : list token :=
  match partial with
  | [] => [op; cl]
  | _ =>
      if String.eqb gap "" then op :: join [TComma] partial ++ [cl]
      else let ind := (stepback ++ gap)%string in
           op :: TWs (nl ++ ind)%string :: join [TComma; TWs (nl ++ ind)%string] partial
              ++ [TWs (nl ++ stepback)%string; cl]
  end.

(** SerializeJSONProperty; [None] is [undefined] (the value is skipped in
    an object and written [null] in an array). *)
Fixpoint ser (gap indent : string) (v : jsval) {struct v} : option (list token) :=
  match v with
  | JUndefined => None
  | JNull => Some [TNull]
  | JBool true => Some [TTrue]
  | JBool false => Some [TFalse]
  | JNum (Fin z) => Some [TNumber z]
  | JNum _ => Some [TNull]
  | JStr s => Some [TString s]
  | JArr l =>
      Some (wrap TLBracket TRBracket gap indent
              (map (fun x => match ser gap (indent ++ gap)%string x with
                             | Some t => t
                             | None => [TNull]
                             end) l))
  | JObj o =>
      Some (wrap TLBrace TRBrace gap indent
              (flat_map (fun kx => match ser gap (indent ++ gap)%string (snd kx) with
                                   | Some t => [[TString (fst kx); TColon]
                                                ++ (if String.eqb gap "" then [] else [TWs " "])
                                                ++ t]
                                   | None => []
                                   end) o))
  end.

Fixpoint spaces (n : nat) : string :=
  match n with O => "" | S n' => String " "%char (spaces n') end.

(** [JSON.stringify(value, null, space)] with [space] a number or
    [undefined]. *)
Definition JSON_stringify (value : jsval) (space : option nat) : option text :=
  let gap := match space with Some n => spaces (Nat.min 10 n) | None => "" end in
  ser gap "" value.

Definition is_ws_char (c : ascii) : bool :=
  let n := nat_of_ascii c in
  (n =? 32)%nat || (n =? 9)%nat || (n =? 10)%nat || (n =? 13)%nat.

Fixpoint is_ws (s : string) : bool :=
  match s with
  | EmptyString => true
  | String c s' => is_ws_char c && is_ws s'
  end.

(** The next non-whitespace lexeme. *)
Fixpoint next (ts : text) : option (token * text) :=
  match ts with
  | [] => None
  | TWs s :: r => if is_ws s then next r else None
  | t :: r => Some (t, r)
  end.

(** Recursive-descent JSON parser; [fuel] bounds the nesting of calls.
    Members are added with CreateDataProperty ([obj_set]): a repeated key
    keeps its first position and its last value. *)
Fixpoint parse_value (fuel : nat) (ts : text) {struct fuel} : option (jsval * text) :=
  match fuel with
  | O => None
  | S f =>
      match next ts with
      | Some (TNull, r) => Some (JNull, r)
      | Some (TTrue, r) => Some (JBool true, r)
      | Some (TFalse, r) => Some (JBool false, r)
      | Some (TNumber z, r) => Some (JNum (Fin z), r)
      | Some (TString s, r) => Some (JStr s, r)
      | Some (TLBracket, r) =>
          match next r with
          | Some (TRBracket, r') => Some (JArr [], r')
          | _ => parse_elements f [] r
          end
      | Some (TLBrace, r) =>
          match next r with
          | Some (TRBrace, r') => Some (JObj [], r')
          | _ => parse_members f [] r
          end
      | _ => None
      end
  end
with parse_elements (fuel : nat) (acc : list jsval) (ts : text) {struct fuel}
  : option (jsval * text) :=
  match fuel with
  | O => None
  | S f =>
      match parse_value f ts with
      | Some (v, r) =>
          match next r with
          | Some (TComma, r') => parse_elements f (acc ++ [v]) r'
          | Some (TRBracket, r') => Some (JArr (acc ++ [v]), r')
          | _ => None
          end
      | None => None
      end
  end
with parse_members (fuel : nat) (acc : obj) (ts : text) {struct fuel}
  : option (jsval * text) :=
  match fuel with
  | O => None
  | S f =>
      match next ts with
      | Some (TString k, r) =>
          match next r with
          | Some (TColon, r1) =>
              match parse_value f r1 with
              | Some (v, r2) =>
                  match next r2 with
                  | Some (TComma, r3) => parse_members f (obj_set acc k v) r3
                  | Some (TRBrace, r3) => Some (JObj (obj_set acc k v), r3)
                  | _ => None
                  end
              | None => None
              end
          | _ => None
          end
      | _ => None
      end
  end.

Definition only_ws (ts : text) : bool :=
  forallb (fun t => match t with TWs s => is_ws s | _ => false end) ts.

(** [JSON.parse(text)]; [None] is a SyntaxError. *)
Definition JSON_parse (input : text) : option jsval :=
  match parse_value (S (List.length input)) input with
  | Some (v, r) => if only_ws r then Some v else None
  | None => None
  end.

(** ** Codec (index.ts, [parse] and [toJSON]) *)

Definition json_only :=
  "Only JSON format is supported in this version. For YAML, use a YAML parser first.".

(** [errors.map(e => `${e.path}: ${e.message}`).join(', ')] *)
Definition error_messages (errors : list IAPValidationError) : string :=
  String.concat ", " (map (fun e => path e ++ ": " ++ message e)%string errors).

Definition parse (input : text) : result jsval :=
  match JSON_parse input with
  | None => Throw (Error json_only)
  | Some parsed =>
      errors <- validate parsed ;;
      if (0 <? List.length errors)%nat
      then Throw (Error ("Invalid IAP task: " ++ error_messages errors)%string)
      else Ok parsed
  end.

(** [toJSON(task, pretty = true)]: [JSON.stringify(task, null, pretty ? 2 : undefined)]. *)
Definition toJSON (task : jsval) (pretty : bool) : option text :=
  JSON_stringify task (if pretty then Some 2 else None).

(** ** Auxiliary definitions for the statements *)

Definition rmap {A B} (f : A -> B) (m : result A) : result B :=
  x <- m ;; Ok (f x).

(** Which errors each block can report. *)
Definition block_ok (allowed : list IAPValidationError) (m : result (list IAPValidationError)) :=
  match m with Ok x => incl x allowed | Throw _ => True end.

(** The errors [validate] reports under a top-level field: at [field] or
    at a path [field.x]. *)
Definition errors_under (field : string) (errors : list IAPValidationError) :=
  filter (fun e => String.eqb (path e) field || String.prefix (field ++ ".") (path e)) errors.

(** Reading a property of an optional builder sub-object. *)
Definition opt_lookup (x : option obj) (k : string) : option jsval :=
  match x with Some o => lookup o k | None => None end.

Definition keys (o : obj) : list string := map fst o.

(** [o[k]] on a plain object. *)
Definition prop (o : obj) (k : string) : jsval :=
  match lookup o k with Some v => v | None => JUndefined end.

(** The per-field setters of the task sub-object. *)
Inductive task_field_setter : Type :=
| SetIntent (s : string)
| SetDetails (s : string)
| SetContext (s : string)
| SetContextRef (s : string).

Definition apply_task_setter (b : TaskBuilder.t) (c : task_field_setter) : TaskBuilder.t :=
  match c with
  | SetIntent s => TaskBuilder.intent b s
  | SetDetails s => TaskBuilder.details b s
  | SetContext s => TaskBuilder.context b s
  | SetContextRef s => TaskBuilder.contextRef b s
  end.

(** The property a task setter writes, and its value. *)
Definition task_setter_field (c : task_field_setter) : string * jsval :=
  match c with
  | SetIntent s => ("intent", JStr s)
  | SetDetails s => ("details", JStr s)
  | SetContext s => ("context", JStr s)
  | SetContextRef s => ("context_ref", JStr s)
  end.

(** The per-field setters of the constraints sub-object. *)
Inductive constraint_field_setter : Type :=
| SetTimeLimit (s : string)
| SetTokenBudget (n : number)
| SetToolsAllowed (l : list string)
| SetToolsDenied (l : list string)
| SetScope (s : string)
| SetRequiresCapabilities (l : list string).

Definition apply_constraint_setter (b : TaskBuilder.t) (c : constraint_field_setter)
  : TaskBuilder.t :=
  match c with
  | SetTimeLimit s => TaskBuilder.timeLimit b s
  | SetTokenBudget n => TaskBuilder.tokenBudget b n
  | SetToolsAllowed l => TaskBuilder.toolsAllowed b l
  | SetToolsDenied l => TaskBuilder.toolsDenied b l
  | SetScope s => TaskBuilder.scope b s
  | SetRequiresCapabilities l => TaskBuilder.requiresCapabilities b l
  end.

Definition constraint_setter_field (c : constraint_field_setter) : string * jsval :=
  match c with
  | SetTimeLimit s => ("time_limit", JStr s)
  | SetTokenBudget n => ("token_budget", JNum n)
  | SetToolsAllowed l => ("tools_allowed", JArr (map JStr l))
  | SetToolsDenied l => ("tools_denied", JArr (map JStr l))
  | SetScope s => ("scope", JStr s)
  | SetRequiresCapabilities l => ("requires_capabilities", JArr (map JStr l))
  end.

(** The smallest conformant document. *)
Definition minimal_doc : obj :=
  [("iap_version", JStr "0.2"); ("task_id", JStr "t");
   ("sender", JObj [("agent_id", JStr "a")]); ("task", JObj [("intent", JStr "x")])].

(** A conformant document whose token budget is NaN (what
    [tokenBudget(NaN)] stores), and the document [JSON.parse] gives back
    for its serialisation. *)
Definition nan_doc : jsval :=
  JObj (minimal_doc ++ [("constraints", JObj [("token_budget", JNum NaN)])]).
Definition nan_doc_reparsed : jsval :=
  JObj (minimal_doc ++ [("constraints", JObj [("token_budget", JNull)])]).

(** A conformant document with every optional part, as [build()] returns
    it (unset parts [undefined]). *)
Definition full_doc : jsval :=
  JObj (minimal_doc ++
        [("delivery", JObj [("method", JStr "async"); ("webhook", JStr "https://h");
                            ("status_endpoint", JUndefined)]);
         ("constraints", JObj [("token_budget", JNum (Fin 1000));
                               ("tools_allowed", JArr [JStr "web"])]);
         ("success_criteria", JArr [JStr "done"]);
         ("output", JObj [("format", JStr "json"); ("schema", JUndefined)]);
         ("on_failure", JObj [("action", JStr "retry"); ("max_retries", JNum (Fin 2))])]).

(** The tokens of an array element: [undefined] is written [null]. *)
Definition ser_elem (gap indent : string) (x : jsval) : list token :=
  match ser gap indent x with Some t => t | None => [TNull] end.

(** The tokens of an object member (none when its value is [undefined]). *)
Definition ser_member (gap indent : string) (kx : string * jsval) : list (list token) :=
  match ser gap indent (snd kx) with
  | Some t => [[TString (fst kx); TColon] ++ (if String.eqb gap "" then [] else [TWs " "]) ++ t]
  | None => []
  end.

(** The whitespace after an opening bracket or a comma, and before the
    closing bracket, of a non-empty array or object. *)
Definition lead (gap stepback : string) : list token :=
  if String.eqb gap "" then [] else [TWs (nl ++ stepback ++ gap)%string].
Definition trail (gap stepback : string) : list token :=
  if String.eqb gap "" then [] else [TWs (nl ++ stepback)%string].

(** A run of whitespace lexemes. *)
Definition ws_toks (w : list token) : Prop :=
  Forall (fun t => exists s, t = TWs s /\ is_ws s = true) w.

(** Lexemes a serialised value can start with. *)
Definition starts_value (t : token) : bool :=
  match t with
  | TNull | TTrue | TFalse | TNumber _ | TString _ | TLBracket | TLBrace => true
  | _ => false
  end.

(** The value [JSON.parse] rebuilds from [JSON.stringify(v)]: properties
    whose value is [undefined] are left out, non-finite numbers and
    [undefined] array elements become [null]. *)
Fixpoint norm (v : jsval) : jsval :=
  match v with
  | JNum (Fin z) => JNum (Fin z)
  | JNum _ => JNull
  | JArr l => JArr (map (fun x => match x with JUndefined => JNull | _ => norm x end) l)
  | JObj o =>
      JObj (fold_left (fun acc kx => if is_undefined (snd kx) then acc
                                     else obj_set acc (fst kx) (norm (snd kx))) o [])
  | _ => v
  end.

Definition norm_el (x : jsval) : jsval :=
  match x with JUndefined => JNull | _ => norm x end.

Definition norm_step (acc : obj) (kx : string * jsval) : obj :=
  if is_undefined (snd kx) then acc else obj_set acc (fst kx) (norm (snd kx)).

(** Field-wise equality: equal atoms, arrays with field-wise equal
    elements, objects whose every property reads field-wise equal (a
    missing property reads [undefined]). *)
Inductive fieldwise_eq : jsval -> jsval -> Prop :=
| fe_refl v : fieldwise_eq v v
| fe_arr l1 l2 : Forall2 fieldwise_eq l1 l2 -> fieldwise_eq (JArr l1) (JArr l2)
| fe_obj o1 o2 : (forall k, fieldwise_eq (prop o1 k) (prop o2 k)) -> fieldwise_eq (JObj o1) (JObj o2).

Fixpoint nodupb (ks : list string) : bool :=
  match ks with
  | [] => true
  | k :: ks' => negb (existsb (String.eqb k) ks') && nodupb ks'
  end.

(** Values JSON represents exactly: finite numbers, no [undefined] array
    element, no repeated key in an object. *)
Fixpoint json_safe (v : jsval) : bool :=
  match v with
  | JNum (Fin _) => true
  | JNum _ => false
  | JArr l => forallb (fun x => negb (is_undefined x) && json_safe x) l
  | JObj o => nodupb (map fst o) && forallb (fun kx => json_safe (snd kx)) o
  | _ => true
  end.

(** Induction on values through the lists of arrays and objects. *)
Definition jsval_ind' (P : jsval -> Prop)
  (fatom : forall v, match v with JArr _ | JObj _ => False | _ => True end -> P v)
  (farr : forall l, Forall P l -> P (JArr l))
  (fobj : forall o, Forall (fun kx => P (snd kx)) o -> P (JObj o)) : forall v, P v :=
  fix go v :=
    match v return P v with
    | JArr l =>
        farr l ((fix gol l := match l return Forall P l with
                              | [] => Forall_nil _
                              | x :: l' => Forall_cons _ (go x) (gol l')
                              end) l)
    | JObj o =>
        fobj o ((fix goo o := match o return Forall (fun kx => P (snd kx)) o with
                              | [] => Forall_nil _
                              | kx :: o' => Forall_cons _ (go (snd kx)) (goo o')
                              end) o)
    | JUndefined => fatom JUndefined I
    | JNull => fatom JNull I
    | JBool b => fatom (JBool b) I
    | JNum n => fatom (JNum n) I
    | JStr s => fatom (JStr s) I
    end.

(** The keys [validate] reads on an object. *)
Definition validated_keys : list string :=
  ["iap_version"; "task_id"; "sender"; "task"; "delivery"; "output"; "on_failure"].

(** Every error [validate] can report. *)
Definition error_catalogue : list IAPValidationError :=
  [err_not_object; err_version; err_task_id; err_sender; err_agent_id; err_task; err_intent;
   err_delivery; err_method; err_webhook; err_email; err_output; err_format;
   err_on_failure; err_action].

(** The compact form of a lexeme sequence: its whitespace lexemes removed. *)
Definition is_ws_tok (t : token) : bool :=
  match t with TWs _ => true | _ => false end.
Definition strip_ws (ts : text) : text := filter (fun t => negb (is_ws_tok t)) ts.








(** Subsequences, for the order of reported errors. *)
Inductive subseq {A : Type} : list A -> list A -> Prop :=
| subseq_nil : subseq [] []
| subseq_skip x l1 l2 : subseq l1 l2 -> subseq l1 (x :: l2)
| subseq_take x l1 l2 : subseq l1 l2 -> subseq (x :: l1) (x :: l2).

Definition err_eqb (a b : IAPValidationError) : bool :=
  String.eqb (path a) (path b) && String.eqb (message a) (message b).

Fixpoint subseqb (l1 l2 : list IAPValidationError) : bool :=
  match l1, l2 with
  | [], _ => true
  | _ :: _, [] => false
  | x :: l1', y :: l2' => if err_eqb x y then subseqb l1' l2' else subseqb l1 l2'
  end.

Definition block_sub (allowed : list IAPValidationError) (m : result (list IAPValidationError)) :=
  match m with Ok x => subseq x allowed | Throw _ => True end.

(** * Properties *)

(** ** Evaluation on small inputs *)


Example validate_minimal :
  validate (JObj [("iap_version", JStr "0.2"); ("task_id", JStr "t");
                  ("sender", JObj [("agent_id", JStr "a")]);
                  ("task", JObj [("intent", JStr "x")])]) = Ok [].
Proof. reflexivity. Qed.

Example validate_empty :
  validate (JObj []) = Ok [err_version; err_task_id; err_sender; err_task].
Proof. reflexivity. Qed.

Example builder_minimal :
  TaskBuilder.build (TaskBuilder.intent (TaskBuilder.from TaskBuilder.empty "a" None None) "x")
    "id0"
  = Ok (JObj [("iap_version", JStr "0.2"); ("task_id", JStr "id0");
              ("sender", JObj [("agent_id", JStr "a"); ("email", JUndefined);
                               ("framework", JUndefined)]);
              ("delivery", JUndefined); ("task", JObj [("intent", JStr "x")]);
              ("constraints", JUndefined); ("success_criteria", JUndefined);
              ("output", JUndefined); ("on_failure", JUndefined)]).
Proof. reflexivity. Qed.

Example roundtrip_minimal :
  forall pretty,
  match toJSON (JObj [("iap_version", JStr "0.2"); ("task_id", JStr "t");
                      ("sender", JObj [("agent_id", JStr "a"); ("email", JUndefined)]);
                      ("task", JObj [("intent", JStr "x")]); ("l", JArr [JNum (Fin 1); JUndefined])])
                pretty with
  | Some txt => parse txt
  | None => Throw (Error "")
  end = Ok (JObj [("iap_version", JStr "0.2"); ("task_id", JStr "t");
                  ("sender", JObj [("agent_id", JStr "a")]);
                  ("task", JObj [("intent", JStr "x")]); ("l", JArr [JNum (Fin 1); JNull])]).
Proof. intros []; reflexivity. Qed.

Example parse_empty_object :
  parse [TLBrace; TWs " "; TRBrace]
  = Throw (Error ("Invalid IAP task: iap_version: Must be " ++ dq ++ "0.2" ++ dq
                  ++ ", task_id: Required string, sender: Required object, task: Required object")%string).
Proof. reflexivity. Qed.

(** ** Validator blocks only append *)

Lemma pushif_app c errs e :
  pushif c errs e = errs ++ (if c then [e] else []).
Proof. destruct c; unfold pushif, push; simpl; [reflexivity | now rewrite app_nil_r]. Qed.

Ltac split_matches :=
  repeat (unfold bind, rmap; simpl; rewrite ?pushif_app;
          match goal with
          | |- context [get ?v ?k] => destruct (get v k)
          | |- context [is_undefined ?v] => destruct (is_undefined v)
          | |- context [String.eqb ?a ?b] => destruct (String.eqb a b)
          | |- context [is_str ?v ?s] => destruct (is_str v s)
          | |- context [includes ?l ?v] => destruct (includes l v)
          | |- context [truthy ?v] => destruct (truthy v)
          | |- context [not_object ?v] => destruct (not_object v)
          | |- context [not_nonempty_string ?v] => destruct (not_nonempty_string v)
          end);
  simpl; rewrite ?app_assoc, ?app_nil_r; try reflexivity;
  try (rewrite <- ?app_assoc; reflexivity).

Ltac acc_proof :=
  intros; unfold push; split_matches.

Lemma check_iap_version_acc t errs :
  check_iap_version t errs = rmap (app errs) (check_iap_version t []).
Proof. unfold check_iap_version; acc_proof. Qed.

Lemma check_task_id_acc t errs :
  check_task_id t errs = rmap (app errs) (check_task_id t []).
Proof. unfold check_task_id; acc_proof. Qed.

Lemma check_sender_acc t errs :
  check_sender t errs = rmap (app errs) (check_sender t []).
Proof. unfold check_sender; acc_proof. Qed.

Lemma check_task_acc t errs :
  check_task t errs = rmap (app errs) (check_task t []).
Proof. unfold check_task; acc_proof. Qed.

Lemma check_delivery_acc t errs :
  check_delivery t errs = rmap (app errs) (check_delivery t []).
Proof. unfold check_delivery; acc_proof. Qed.

Lemma check_output_acc t errs :
  check_output t errs = rmap (app errs) (check_output t []).
Proof. unfold check_output; acc_proof. Qed.

Lemma check_on_failure_acc t errs :
  check_on_failure t errs = rmap (app errs) (check_on_failure t []).
Proof. unfold check_on_failure; acc_proof. Qed.

(** ** [validate] on an object, block by block *)

Lemma validate_split t :
  not_object t = false ->
  validate t =
    (p1 <- check_iap_version t [] ;; p2 <- check_task_id t [] ;;
     p3 <- check_sender t [] ;; p4 <- check_task t [] ;;
     d <- check_delivery t [] ;; op <- check_output t [] ;; f <- check_on_failure t [] ;;
     Ok (p1 ++ p2 ++ p3 ++ p4 ++ d ++ op ++ f)).
Proof.
  intros H. unfold validate. rewrite H.
  destruct (check_iap_version t []) as [p1|e]; [simpl|reflexivity].
  rewrite check_task_id_acc; destruct (check_task_id t []) as [p2|e]; [simpl|reflexivity].
  rewrite check_sender_acc; destruct (check_sender t []) as [p3|e]; [simpl|reflexivity].
  rewrite check_task_acc; destruct (check_task t []) as [p4|e]; [simpl|reflexivity].
  rewrite check_delivery_acc; destruct (check_delivery t []) as [d|e]; [simpl|reflexivity].
  rewrite check_output_acc; destruct (check_output t []) as [op|e]; [simpl|reflexivity].
  rewrite check_on_failure_acc; destruct (check_on_failure t []) as [f|e]; [simpl|reflexivity].
  now rewrite !app_assoc.
Qed.

Ltac block_proof :=
  unfold block_ok;
  repeat (unfold bind; simpl; rewrite ?pushif_app;
          match goal with
          | |- context [get ?v ?k] => destruct (get v k)
          | |- context [is_undefined ?v] => destruct (is_undefined v)
          | |- context [String.eqb ?a ?b] => destruct (String.eqb a b)
          | |- context [is_str ?v ?s] => destruct (is_str v s)
          | |- context [includes ?l ?v] => destruct (includes l v)
          | |- context [truthy ?v] => destruct (truthy v)
          | |- context [not_object ?v] => destruct (not_object v)
          | |- context [not_nonempty_string ?v] => destruct (not_nonempty_string v)
          end);
  unfold push; simpl; try exact I; intros ? Hin; simpl in *; tauto.

Lemma check_iap_version_block t : block_ok [err_version] (check_iap_version t []).
Proof. unfold check_iap_version; block_proof. Qed.
Lemma check_task_id_block t : block_ok [err_task_id] (check_task_id t []).
Proof. unfold check_task_id; block_proof. Qed.
Lemma check_sender_block t : block_ok [err_sender; err_agent_id] (check_sender t []).
Proof. unfold check_sender; block_proof. Qed.
Lemma check_task_block t : block_ok [err_task; err_intent] (check_task t []).
Proof. unfold check_task; block_proof. Qed.
Lemma check_delivery_block t :
  block_ok [err_delivery; err_method; err_webhook; err_email] (check_delivery t []).
Proof. unfold check_delivery; block_proof. Qed.
Lemma check_output_block t : block_ok [err_output; err_format] (check_output t []).
Proof. unfold check_output; block_proof. Qed.
Lemma check_on_failure_block t : block_ok [err_on_failure; err_action] (check_on_failure t []).
Proof. unfold check_on_failure; block_proof. Qed.

(** ** Objects as finite maps *)

Lemma lookup_obj_set_same o k v : lookup (obj_set o k v) k = Some v.
Proof.
  induction o as [|[k' v'] o IH]; simpl.
  - now rewrite String.eqb_refl.
  - destruct (String.eqb k' k) eqn:E; simpl.
    + now rewrite E.
    + now rewrite E.
Qed.

Lemma lookup_obj_set_other o k v k' :
  k <> k' -> lookup (obj_set o k v) k' = lookup o k'.
Proof.
  intros Hne. induction o as [|[k0 v0] o IH]; simpl.
  - destruct (String.eqb k k') eqn:E; [apply String.eqb_eq in E; congruence | reflexivity].
  - destruct (String.eqb k0 k) eqn:E; simpl.
    + apply String.eqb_eq in E; subst k0.
      destruct (String.eqb k k') eqn:E'; [apply String.eqb_eq in E'; congruence | reflexivity].
    + now rewrite IH.
Qed.

Lemma get_obj_set_same o k v : get (JObj (obj_set o k v)) k = Ok v.
Proof. simpl. now rewrite lookup_obj_set_same. Qed.

Lemma get_obj_set_other o k v k' :
  k <> k' -> get (JObj (obj_set o k v)) k' = get (JObj o) k'.
Proof. intros Hne. simpl. now rewrite lookup_obj_set_other. Qed.

(** A block reads only its own field of the candidate. *)

Lemma check_iap_version_frame o k v errs :
  k <> "iap_version" -> check_iap_version (JObj (obj_set o k v)) errs = check_iap_version (JObj o) errs.
Proof. intros Hk. unfold check_iap_version. now rewrite get_obj_set_other by congruence. Qed.
Lemma check_task_id_frame o k v errs :
  k <> "task_id" -> check_task_id (JObj (obj_set o k v)) errs = check_task_id (JObj o) errs.
Proof. intros Hk. unfold check_task_id. now rewrite get_obj_set_other by congruence. Qed.
Lemma check_sender_frame o k v errs :
  k <> "sender" -> check_sender (JObj (obj_set o k v)) errs = check_sender (JObj o) errs.
Proof. intros Hk. unfold check_sender. now rewrite get_obj_set_other by congruence. Qed.
Lemma check_task_frame o k v errs :
  k <> "task" -> check_task (JObj (obj_set o k v)) errs = check_task (JObj o) errs.
Proof. intros Hk. unfold check_task. now rewrite get_obj_set_other by congruence. Qed.
Lemma check_delivery_frame o k v errs :
  k <> "delivery" -> check_delivery (JObj (obj_set o k v)) errs = check_delivery (JObj o) errs.
Proof. intros Hk. unfold check_delivery. now rewrite get_obj_set_other by congruence. Qed.
Lemma check_output_frame o k v errs :
  k <> "output" -> check_output (JObj (obj_set o k v)) errs = check_output (JObj o) errs.
Proof. intros Hk. unfold check_output. now rewrite get_obj_set_other by congruence. Qed.
Lemma check_on_failure_frame o k v errs :
  k <> "on_failure" -> check_on_failure (JObj (obj_set o k v)) errs = check_on_failure (JObj o) errs.
Proof. intros Hk. unfold check_on_failure. now rewrite get_obj_set_other by congruence. Qed.

(** ** Spread and key uniqueness *)

Lemma lookup_not_in o k : ~ In k (keys o) -> lookup o k = None.
Proof.
  induction o as [|[k' v'] o IH]; simpl; intros Hn; [reflexivity|].
  destruct (String.eqb k' k) eqn:E.
  - apply String.eqb_eq in E. tauto.
  - apply IH. tauto.
Qed.

Lemma in_keys_obj_set o k v x : In x (keys (obj_set o k v)) -> In x (keys o) \/ x = k.
Proof.
  induction o as [|[k' v'] o IH]; simpl; [intuition|].
  destruct (String.eqb k' k); simpl; intuition.
Qed.

Lemma obj_set_nodup o k v : NoDup (keys o) -> NoDup (keys (obj_set o k v)).
Proof.
  induction o as [|[k' v'] o IH]; simpl; intros Hnd.
  - constructor; [intros []|constructor].
  - inversion Hnd as [|? ? Hnin Hnd']; subst.
    destruct (String.eqb k' k) eqn:E; simpl.
    + now constructor.
    + constructor; [|now apply IH].
      intros Hin. apply in_keys_obj_set in Hin as [Hin|Hin]; [tauto|].
      subst. now rewrite String.eqb_refl in E.
Qed.

Lemma spread_into_nodup acc o : NoDup (keys acc) -> NoDup (keys (spread_into acc o)).
Proof.
  revert acc; induction o as [|[k v] o IH]; intros acc Hnd; simpl; [exact Hnd|].
  apply IH, obj_set_nodup, Hnd.
Qed.

Lemma spread_nodup x : NoDup (keys (spread x)).
Proof. destruct x; simpl; [apply spread_into_nodup|]; constructor. Qed.

Lemma lookup_spread_into acc o k :
  NoDup (keys o) ->
  lookup (spread_into acc o) k = match lookup o k with Some v => Some v | None => lookup acc k end.
Proof.
  revert acc; induction o as [|[k1 v1] o IH]; intros acc Hnd; simpl; [reflexivity|].
  inversion Hnd as [|? ? Hnin Hnd']; subst.
  rewrite (IH _ Hnd').
  destruct (String.eqb k1 k) eqn:E.
  - apply String.eqb_eq in E; subst k1.
    rewrite lookup_not_in by exact Hnin. apply lookup_obj_set_same.
  - destruct (lookup o k); [reflexivity|].
    apply lookup_obj_set_other. intros ->. now rewrite String.eqb_refl in E.
Qed.

Lemma lookup_spread_some o k : NoDup (keys o) -> lookup (spread (Some o)) k = lookup o k.
Proof.
  intros Hnd. unfold spread. rewrite lookup_spread_into by exact Hnd.
  destruct (lookup o k); reflexivity.
Qed.

(** A field written by [obj_set] on a spread survives a second spread and
    a write to another field. *)
Lemma merge_preserves x k1 v1 k2 v2 :
  k2 <> k1 ->
  lookup (obj_set (spread (Some (obj_set (spread x) k1 v1))) k2 v2) k1 = Some v1.
Proof.
  intros Hne. rewrite lookup_obj_set_other by exact Hne.
  rewrite lookup_spread_some by (apply obj_set_nodup, spread_nodup).
  apply lookup_obj_set_same.
Qed.

(** ** C1: [validate] throws on a present [null] sub-object *)

(** C1 (code_bug).  The claim: [validate] never throws, for any input,
    including objects whose [delivery], [output] or [on_failure] is [null].
    The code: [typeof null === 'object'], so a [null] [delivery] passes the
    object test and [delivery.method] raises a TypeError. *)
Theorem validate_null_delivery_throws :
  validate (JObj [("delivery", JNull)])
  = Throw (TypeError "Cannot read properties of null (reading 'method')").
Proof. reflexivity. Qed.

(** ** C2: the top-level type check *)

(** C2 (counterexample).  An array passes the check [!task || typeof task !==
    'object'] and gets the field errors, not the single top-level error; and
    the message carries no final period. *)
Lemma validate_array_counterexample :
  validate (JArr []) <> Ok [mkError "" "Task must be an object."] /\
  validate JNull <> Ok [mkError "" "Task must be an object."].
Proof. split; intros H; vm_compute in H; congruence. Qed.

(** C2 (amended).  For every input other than an object or an array
    (undefined, null, booleans, numbers, strings), [validate] returns exactly
    the one error with path [""] and message "Task must be an object";
    arrays are treated as objects and get the four required-field errors. *)
Theorem validate_rejects_non_objects :
  (forall v, (forall l, v <> JArr l) -> (forall o, v <> JObj o) ->
             validate v = Ok [mkError "" "Task must be an object"]) /\
  (forall l, validate (JArr l) = Ok [err_version; err_task_id; err_sender; err_task]).
Proof.
  split.
  - intros v Ha Ho. destruct v; try reflexivity.
    + destruct b; reflexivity.
    + destruct n as [z| | |]; try reflexivity. destruct z; reflexivity.
    + destruct s; reflexivity.
    + exfalso; now apply (Ha l).
    + exfalso; now apply (Ho o).
  - intros l. reflexivity.
Qed.

Lemma validate_rejects_non_objects_witness :
  (forall l, JNum (Fin 7) <> JArr l) /\ (forall o, JNum (Fin 7) <> JObj o) /\
  validate (JNum (Fin 7)) = Ok [mkError "" "Task must be an object"].
Proof.
  split; [intros l; discriminate|]. split; [intros o; discriminate|].
  apply (proj1 validate_rejects_non_objects); intros; discriminate.
Defined.

(** ** C9: [isValid] is [validate(x).length === 0] *)

(** C9.  For every input, [isValid] returns true exactly when [validate]
    returns the empty list, false exactly when it returns a non-empty list,
    and throws exactly what [validate] throws. *)
Theorem isValid_agrees_with_validate (x : jsval) :
  (isValid x = Ok true <-> validate x = Ok []) /\
  (isValid x = Ok false <-> exists e es, validate x = Ok (e :: es)) /\
  (forall ex, isValid x = Throw ex <-> validate x = Throw ex).
Proof.
  unfold isValid. destruct (validate x) as [[|e es]|ex]; simpl;
    repeat split; intros;
    repeat match goal with H : exists _, _ |- _ => destruct H end;
    try congruence; eauto.
Qed.

(** ** C7 and C10: [build()] *)

(** C7.  [build()] throws "Sender is required" when no sender was set;
    otherwise throws "Task intent is required" when the accumulated task has
    no (truthy) intent; otherwise returns a document whose [iap_version] is
    "0.2" and whose [sender.agent_id] and [task.intent] are the accumulated
    ones. *)
Theorem build_preconditions (b : TaskBuilder.t) (id : string) :
  (TaskBuilder._sender b = None ->
     TaskBuilder.build b id = Throw (Error TaskBuilder.sender_required)) /\
  (TaskBuilder._sender b <> None -> truthy (TaskBuilder.task_intent b) = false ->
     TaskBuilder.build b id = Throw (Error TaskBuilder.intent_required)) /\
  (forall s, TaskBuilder._sender b = Some s -> truthy (TaskBuilder.task_intent b) = true ->
     exists d, TaskBuilder.build b id = Ok d /\
       get d "iap_version" = Ok (JStr "0.2") /\
       (x <- get d "sender" ;; get x "agent_id") = get (JObj s) "agent_id" /\
       (x <- get d "task" ;; get x "intent") = Ok (TaskBuilder.task_intent b)).
Proof.
  destruct b as [tid sdr dlv tsk cns sc out onf].
  unfold TaskBuilder.build, TaskBuilder.task_intent; simpl.
  destruct sdr as [s|].
  - split; [discriminate|]. split.
    + intros _ H. now rewrite H.
    + intros s' Hs H. injection Hs as <-. rewrite H. simpl.
      destruct tsk as [tk|]; [|discriminate].
      eexists; repeat split; simpl.
      destruct (lookup tk "intent"); reflexivity.
  - split; [reflexivity|]. split; [intros H; now contradiction H|].
    intros s' Hs; discriminate.
Qed.

Lemma build_preconditions_witness :
  TaskBuilder.build (TaskBuilder.intent (TaskBuilder.from TaskBuilder.empty "a" None None) "x")
    "id0" <> Throw (Error TaskBuilder.intent_required) /\
  TaskBuilder.build TaskBuilder.empty "id0" = Throw (Error TaskBuilder.sender_required) /\
  TaskBuilder.build (TaskBuilder.from TaskBuilder.empty "a" None None) "id0"
    = Throw (Error TaskBuilder.intent_required) /\
  exists d, TaskBuilder.build
              (TaskBuilder.intent (TaskBuilder.from TaskBuilder.empty "a" None None) "x") "id0"
            = Ok d /\ get d "iap_version" = Ok (JStr "0.2").
Proof.
  split; [discriminate|].
  split; [apply (build_preconditions TaskBuilder.empty "id0"); reflexivity|].
  split; [apply (build_preconditions (TaskBuilder.from TaskBuilder.empty "a" None None) "id0");
          [discriminate|reflexivity]|].
  destruct (proj2 (proj2 (build_preconditions
              (TaskBuilder.intent (TaskBuilder.from TaskBuilder.empty "a" None None) "x") "id0"))
              _ eq_refl eq_refl) as [d [Hd [Hv _]]].
  exists d; split; assumption.
Defined.

(** C10.  With a sender set, [build()] throws "Task intent is required"
    also after [intent("")] and after [task(t)] with a [t] that has no
    [intent]: the test is that the accumulated intent is truthy. *)
Theorem build_requires_truthy_intent (b : TaskBuilder.t) (id : string) (s : obj) :
  TaskBuilder._sender b = Some s ->
  TaskBuilder.build (TaskBuilder.intent b "") id = Throw (Error TaskBuilder.intent_required) /\
  (forall tk, lookup tk "intent" = None ->
     TaskBuilder.build (TaskBuilder.task b tk) id = Throw (Error TaskBuilder.intent_required)) /\
  (TaskBuilder.build b id = Throw (Error TaskBuilder.intent_required) <->
     truthy (TaskBuilder.task_intent b) = false).
Proof.
  destruct b as [tid sdr dlv tsk cns sc out onf]; simpl; intros ->.
  split; [|split].
  - unfold TaskBuilder.build, TaskBuilder.task_intent, TaskBuilder.intent; simpl.
    now rewrite lookup_obj_set_same.
  - intros tk Htk. unfold TaskBuilder.build, TaskBuilder.task_intent; simpl.
    now rewrite Htk.
  - unfold TaskBuilder.build; simpl.
    destruct (truthy (TaskBuilder.task_intent _)) eqn:E; simpl.
    + destruct tsk; split; discriminate.
    + split; reflexivity.
Qed.

Lemma build_requires_truthy_intent_witness :
  TaskBuilder._sender (TaskBuilder.from TaskBuilder.empty "a" None None)
    = Some [("agent_id", JStr "a"); ("email", JUndefined); ("framework", JUndefined)] /\
  TaskBuilder.build (TaskBuilder.intent (TaskBuilder.from TaskBuilder.empty "a" None None) "")
    "id0" = Throw (Error TaskBuilder.intent_required).
Proof.
  split; [reflexivity|].
  exact (proj1 (build_requires_truthy_intent (TaskBuilder.from TaskBuilder.empty "a" None None)
           "id0" [("agent_id", JStr "a"); ("email", JUndefined); ("framework", JUndefined)]
           eq_refl)).
Defined.

(** ** C3: merge-on-write in the builder *)

(** C3 (counterexample).  [deliverTo] then [outputFormat]: [outputFormat]
    writes a fresh [{ format, schema }], so the [deliver_to] written first
    is gone. *)
Lemma outputFormat_drops_deliverTo :
  ~ (opt_lookup (TaskBuilder._output
                   (TaskBuilder.outputFormat
                      (TaskBuilder.deliverTo TaskBuilder.empty "file:///output.md")
                      "markdown" None)) "deliver_to"
     = Some (JStr "file:///output.md")).
Proof. simpl. discriminate. Qed.

(** C3 (amended).  The task setters [intent], [details], [context] and
    [contextRef] merge into the task sub-object, and the constraint setters
    merge into the constraints sub-object: a second setter of the same group
    keeps the field written by the first.  [deliverTo] merges into the output
    sub-object (it keeps [format] and [schema]), but [outputFormat] replaces
    the output sub-object with [{ format, schema }], dropping a [deliver_to]
    set before.  [task], [sender], [delivery], [constraints] and [output]
    replace their sub-object with the one given. *)
Theorem builder_merge_on_write :
  (forall b c1 c2,
     fst (task_setter_field c2) <> fst (task_setter_field c1) ->
     opt_lookup (TaskBuilder._task (apply_task_setter (apply_task_setter b c1) c2))
                (fst (task_setter_field c1)) = Some (snd (task_setter_field c1))) /\
  (forall b c1 c2,
     fst (constraint_setter_field c2) <> fst (constraint_setter_field c1) ->
     opt_lookup (TaskBuilder._constraints
                   (apply_constraint_setter (apply_constraint_setter b c1) c2))
                (fst (constraint_setter_field c1)) = Some (snd (constraint_setter_field c1))) /\
  (forall b f sch loc,
     opt_lookup (TaskBuilder._output (TaskBuilder.deliverTo (TaskBuilder.outputFormat b f sch) loc))
                "format" = Some (JStr f) /\
     opt_lookup (TaskBuilder._output (TaskBuilder.deliverTo (TaskBuilder.outputFormat b f sch) loc))
                "schema" = Some (ostr sch)) /\
  (forall b loc f sch,
     TaskBuilder._output (TaskBuilder.outputFormat (TaskBuilder.deliverTo b loc) f sch)
     = Some [("format", JStr f); ("schema", ostr sch)]) /\
  (forall b tk, TaskBuilder._task (TaskBuilder.task b tk) = Some tk) /\
  (forall b s, TaskBuilder._sender (TaskBuilder.sender b s) = Some s) /\
  (forall b d, TaskBuilder._delivery (TaskBuilder.delivery b d) = Some d) /\
  (forall b c, TaskBuilder._constraints (TaskBuilder.constraints b c) = Some c) /\
  (forall b o, TaskBuilder._output (TaskBuilder.output b o) = Some o).
Proof.
  split; [|split; [|split; [|split]]]; try (repeat split; reflexivity).
  - intros b c1 c2 Hne.
    assert (Hc : forall b c, TaskBuilder._task (apply_task_setter b c)
                 = Some (obj_set (spread (TaskBuilder._task b)) (fst (task_setter_field c))
                                 (snd (task_setter_field c)))) by (intros ? []; reflexivity).
    simpl. rewrite !Hc. now apply merge_preserves.
  - intros b c1 c2 Hne.
    assert (Hc : forall b c, TaskBuilder._constraints (apply_constraint_setter b c)
                 = Some (obj_set (spread (TaskBuilder._constraints b))
                                 (fst (constraint_setter_field c))
                                 (snd (constraint_setter_field c)))) by (intros ? []; reflexivity).
    simpl. rewrite !Hc. now apply merge_preserves.
Qed.

Lemma builder_merge_on_write_witness :
  opt_lookup (TaskBuilder._task (apply_task_setter (apply_task_setter TaskBuilder.empty
                (SetDetails "d")) (SetIntent "i"))) "details" = Some (JStr "d").
Proof.
  apply (proj1 builder_merge_on_write TaskBuilder.empty (SetDetails "d") (SetIntent "i")).
  discriminate.
Defined.

(** ** Blocks and error paths *)

Lemma filter_incl_all (pred : IAPValidationError -> bool) x allowed :
  incl x allowed -> forallb pred allowed = true -> filter pred x = x.
Proof.
  intros Hi Hf. induction x as [|e x IH]; simpl; [reflexivity|].
  assert (He : pred e = true).
  { rewrite forallb_forall in Hf. apply Hf, Hi. now left. }
  rewrite He, IH; [reflexivity|]. intros a Ha. apply Hi. now right.
Qed.

Lemma filter_incl_none (pred : IAPValidationError -> bool) x allowed :
  incl x allowed -> forallb (fun e => negb (pred e)) allowed = true -> filter pred x = [].
Proof.
  intros Hi Hf. induction x as [|e x IH]; simpl; [reflexivity|].
  assert (He : pred e = false).
  { rewrite forallb_forall in Hf. apply negb_true_iff, Hf, Hi. now left. }
  rewrite He. apply IH. intros a Ha. apply Hi. now right.
Qed.

Lemma errors_under_app f x y : errors_under f (x ++ y) = errors_under f x ++ errors_under f y.
Proof. apply filter_app. Qed.

Lemma validate_obj_blocks o es :
  validate (JObj o) = Ok es ->
  (exists d, check_delivery (JObj o) [] = Ok d /\ errors_under "delivery" es = d) /\
  (exists op, check_output (JObj o) [] = Ok op /\ errors_under "output" es = op) /\
  (exists f, check_on_failure (JObj o) [] = Ok f /\ errors_under "on_failure" es = f).
Proof.
  rewrite validate_split by reflexivity.
  pose proof (check_iap_version_block (JObj o)) as B1.
  pose proof (check_task_id_block (JObj o)) as B2.
  pose proof (check_sender_block (JObj o)) as B3.
  pose proof (check_task_block (JObj o)) as B4.
  pose proof (check_delivery_block (JObj o)) as B5.
  pose proof (check_output_block (JObj o)) as B6.
  pose proof (check_on_failure_block (JObj o)) as B7.
  destruct (check_iap_version (JObj o) []) as [p1|]; [|discriminate]; simpl.
  destruct (check_task_id (JObj o) []) as [p2|]; [|discriminate]; simpl.
  destruct (check_sender (JObj o) []) as [p3|]; [|discriminate]; simpl.
  destruct (check_task (JObj o) []) as [p4|]; [|discriminate]; simpl.
  destruct (check_delivery (JObj o) []) as [d|]; [|discriminate]; simpl.
  destruct (check_output (JObj o) []) as [op|]; [|discriminate]; simpl.
  destruct (check_on_failure (JObj o) []) as [f|]; [|discriminate]; simpl.
  simpl in *. intros [= <-].
  repeat rewrite errors_under_app. unfold errors_under.
  rewrite !(filter_incl_none _ p1 _ B1) by reflexivity.
  rewrite !(filter_incl_none _ p2 _ B2) by reflexivity.
  rewrite !(filter_incl_none _ p3 _ B3) by reflexivity.
  rewrite !(filter_incl_none _ p4 _ B4) by reflexivity. simpl.
  split; [|split].
  - exists d; split; [reflexivity|].
    rewrite (filter_incl_all _ d _ B5) by reflexivity.
    rewrite (filter_incl_none _ op _ B6) by reflexivity.
    rewrite (filter_incl_none _ f _ B7) by reflexivity.
    now rewrite !app_nil_r.
  - exists op; split; [reflexivity|].
    rewrite (filter_incl_none _ d _ B5) by reflexivity.
    rewrite (filter_incl_all _ op _ B6) by reflexivity.
    rewrite (filter_incl_none _ f _ B7) by reflexivity.
    now rewrite !app_nil_r.
  - exists f; split; [reflexivity|].
    rewrite (filter_incl_none _ d _ B5) by reflexivity.
    rewrite (filter_incl_none _ op _ B6) by reflexivity.
    rewrite (filter_incl_all _ f _ B7) by reflexivity.
    reflexivity.
Qed.

(** [validate] after setting [delivery]: only the delivery block changes. *)
Lemma validate_set_delivery o x :
  validate (JObj (obj_set o "delivery" x)) =
    (p1 <- check_iap_version (JObj o) [] ;; p2 <- check_task_id (JObj o) [] ;;
     p3 <- check_sender (JObj o) [] ;; p4 <- check_task (JObj o) [] ;;
     d <- check_delivery (JObj (obj_set o "delivery" x)) [] ;;
     op <- check_output (JObj o) [] ;; f <- check_on_failure (JObj o) [] ;;
     Ok (p1 ++ p2 ++ p3 ++ p4 ++ d ++ op ++ f)).
Proof.
  rewrite validate_split by reflexivity.
  rewrite check_iap_version_frame, check_task_id_frame, check_sender_frame, check_task_frame,
    check_output_frame, check_on_failure_frame by discriminate.
  reflexivity.
Qed.

Lemma not_in_paths p x allowed :
  incl x allowed -> ~ In p (map path allowed) -> ~ In p (map path x).
Proof.
  intros Hi Hn Hp. apply in_map_iff in Hp as [e [He Hin]].
  apply Hn, in_map_iff. exists e. split; [exact He|]. now apply Hi.
Qed.

(** ** C4: optional sub-objects *)

(** C4 (counterexample).  [constraints] is not examined: a present
    non-object [constraints] produces no error. *)
Lemma constraints_not_checked_counterexample :
  validate (JObj [("iap_version", JStr "0.2"); ("task_id", JStr "t");
                  ("sender", JObj [("agent_id", JStr "a")]);
                  ("task", JObj [("intent", JStr "x")]);
                  ("constraints", JNum (Fin 5))]) = Ok [].
Proof. reflexivity. Qed.

Ltac delivery_block_eval :=
  unfold check_delivery, check_output, check_on_failure; rewrite get_obj_set_same.

(** C4 (amended).  [validate] never reads [constraints]: whatever its
    value, the result is the same.  [delivery], [output] and [on_failure]
    are checked when present: an empty [{}] there yields exactly one error
    under that field, at [delivery.method], [output.format] and
    [on_failure.action] respectively; a present value that is not
    undefined and whose typeof is not 'object' (a boolean, number or string)
    yields exactly the one error at [delivery], [output] or [on_failure].
    (Present [null] values are left out: see C1.) *)
Theorem optional_subobjects_checked :
  (forall o x, validate (JObj (obj_set o "constraints" x)) = validate (JObj o)) /\
  (forall o es, validate (JObj (obj_set o "delivery" (JObj []))) = Ok es ->
     errors_under "delivery" es = [mkError "delivery.method"
        ("Must be " ++ dq ++ "sync" ++ dq ++ ", " ++ dq ++ "async" ++ dq ++ ", or "
         ++ dq ++ "email" ++ dq)%string]) /\
  (forall o es, validate (JObj (obj_set o "output" (JObj []))) = Ok es ->
     errors_under "output" es = [mkError "output.format"
        "Must be markdown, json, yaml, code, or freeform"]) /\
  (forall o es, validate (JObj (obj_set o "on_failure" (JObj []))) = Ok es ->
     errors_under "on_failure" es = [mkError "on_failure.action"
        "Must be return_partial, retry, escalate, or abort"]) /\
  (forall o x es, x <> JUndefined -> typeof x <> "object" ->
     validate (JObj (obj_set o "delivery" x)) = Ok es ->
     errors_under "delivery" es = [mkError "delivery" "Must be an object"]) /\
  (forall o x es, x <> JUndefined -> typeof x <> "object" ->
     validate (JObj (obj_set o "output" x)) = Ok es ->
     errors_under "output" es = [mkError "output" "Must be an object"]) /\
  (forall o x es, x <> JUndefined -> typeof x <> "object" ->
     validate (JObj (obj_set o "on_failure" x)) = Ok es ->
     errors_under "on_failure" es = [mkError "on_failure" "Must be an object"]).
Proof.
  split; [|split; [|split; [|split; [|split; [|split]]]]].
  - intros o x. rewrite !validate_split by reflexivity.
    rewrite check_iap_version_frame, check_task_id_frame, check_sender_frame, check_task_frame,
      check_delivery_frame, check_output_frame, check_on_failure_frame by discriminate.
    reflexivity.
  - intros o es H. apply validate_obj_blocks in H as [[d [Hd <-]] _].
    revert Hd. delivery_block_eval. simpl. intros Hr; injection Hr as <-; reflexivity.
  - intros o es H. apply validate_obj_blocks in H as [_ [[op [Hop <-]] _]].
    revert Hop. delivery_block_eval. simpl. intros Hr; injection Hr as <-; reflexivity.
  - intros o es H. apply validate_obj_blocks in H as [_ [_ [f [Hf <-]]]].
    revert Hf. delivery_block_eval. simpl. intros Hr; injection Hr as <-; reflexivity.
  - intros o x es Hu Ht H. apply validate_obj_blocks in H as [[d [Hd <-]] _].
    revert Hd. delivery_block_eval. simpl.
    destruct x; simpl in Ht; try congruence; intros Hr; injection Hr as <-; reflexivity.
  - intros o x es Hu Ht H. apply validate_obj_blocks in H as [_ [[op [Hop <-]] _]].
    revert Hop. delivery_block_eval. simpl.
    destruct x; simpl in Ht; try congruence; intros Hr; injection Hr as <-; reflexivity.
  - intros o x es Hu Ht H. apply validate_obj_blocks in H as [_ [_ [f [Hf <-]]]].
    revert Hf. delivery_block_eval. simpl.
    destruct x; simpl in Ht; try congruence; intros Hr; injection Hr as <-; reflexivity.
Qed.

Lemma optional_subobjects_checked_witness :
  validate (JObj (obj_set minimal_doc "delivery" (JObj []))) = Ok [err_method] /\
  errors_under "delivery" [err_method] = [err_method] /\
  errors_under "output" [err_output]
    = [mkError "output" "Must be an object"].
Proof.
  split; [reflexivity|]. split.
  - exact ((proj1 (proj2 optional_subobjects_checked)) minimal_doc [err_method] eq_refl).
  - apply ((proj1 (proj2 (proj2 (proj2 (proj2 (proj2 optional_subobjects_checked))))))
             minimal_doc (JStr "md") [err_output]);
      [discriminate | discriminate | reflexivity].
Defined.

(** ** C8: the async webhook rule *)

(** C8.  Take a candidate whose [delivery] is an object with [method]
    "async" and no truthy [webhook].  Whenever [validate] returns, its list
    contains the [delivery.webhook] error; setting a truthy [webhook]
    removes exactly that error, and no error at [delivery.webhook] is left.
    Where [validate] throws (a [null] [output] or [on_failure], see C1), it
    throws the same on both documents. *)
Theorem async_requires_webhook (o dl : obj) (w : jsval) :
  lookup dl "method" = Some (JStr "async") ->
  truthy (prop dl "webhook") = false ->
  truthy w = true ->
  (forall es, validate (JObj (obj_set o "delivery" (JObj dl))) = Ok es ->
     In "delivery.webhook" (map path es)) /\
  (forall es, validate (JObj (obj_set o "delivery" (JObj dl))) = Ok es ->
     exists a b, es = a ++ err_webhook :: b /\
       validate (JObj (obj_set o "delivery" (JObj (obj_set dl "webhook" w)))) = Ok (a ++ b) /\
       ~ In "delivery.webhook" (map path (a ++ b))) /\
  (forall e, validate (JObj (obj_set o "delivery" (JObj dl))) = Throw e <->
     validate (JObj (obj_set o "delivery" (JObj (obj_set dl "webhook" w)))) = Throw e).
Proof.
  intros Hm Hw Htw.
  assert (D1 : check_delivery (JObj (obj_set o "delivery" (JObj dl))) [] = Ok [err_webhook]).
  { unfold check_delivery. rewrite get_obj_set_same. simpl. rewrite Hm. simpl.
    unfold prop in Hw. destruct (lookup dl "webhook"); simpl; rewrite ?Hw; reflexivity. }
  assert (D2 : check_delivery (JObj (obj_set o "delivery" (JObj (obj_set dl "webhook" w)))) []
               = Ok []).
  { unfold check_delivery. rewrite get_obj_set_same. simpl.
    rewrite lookup_obj_set_other by discriminate. rewrite Hm. simpl.
    rewrite lookup_obj_set_same. simpl. now rewrite Htw. }
  rewrite !validate_set_delivery, D1, D2.
  pose proof (check_iap_version_block (JObj o)) as B1.
  pose proof (check_task_id_block (JObj o)) as B2.
  pose proof (check_sender_block (JObj o)) as B3.
  pose proof (check_task_block (JObj o)) as B4.
  pose proof (check_output_block (JObj o)) as B6.
  pose proof (check_on_failure_block (JObj o)) as B7.
  destruct (check_iap_version (JObj o) []) as [p1|e1]; simpl;
    [|split; [discriminate|split; [discriminate|reflexivity]]].
  destruct (check_task_id (JObj o) []) as [p2|e2]; simpl;
    [|split; [discriminate|split; [discriminate|reflexivity]]].
  destruct (check_sender (JObj o) []) as [p3|e3]; simpl;
    [|split; [discriminate|split; [discriminate|reflexivity]]].
  destruct (check_task (JObj o) []) as [p4|e4]; simpl;
    [|split; [discriminate|split; [discriminate|reflexivity]]].
  destruct (check_output (JObj o) []) as [op|e6]; simpl;
    [|split; [discriminate|split; [discriminate|reflexivity]]].
  destruct (check_on_failure (JObj o) []) as [f|e7]; simpl;
    [|split; [discriminate|split; [discriminate|reflexivity]]].
  simpl in *.
  assert (Hnot : ~ In "delivery.webhook" (map path ((p1 ++ p2 ++ p3 ++ p4) ++ op ++ f))).
  { rewrite !map_app. intros Hin. repeat rewrite in_app_iff in Hin.
    destruct Hin as [[H|[H|[H|H]]]|[H|H]];
      [ apply (not_in_paths _ _ _ B1) in H
      | apply (not_in_paths _ _ _ B2) in H
      | apply (not_in_paths _ _ _ B3) in H
      | apply (not_in_paths _ _ _ B4) in H
      | apply (not_in_paths _ _ _ B6) in H
      | apply (not_in_paths _ _ _ B7) in H ]; auto; simpl; intuition discriminate. }
  split; [|split].
  - intros es [= <-]. rewrite !map_app, !in_app_iff. simpl. tauto.
  - intros es [= <-]. exists (p1 ++ p2 ++ p3 ++ p4), (op ++ f). repeat split.
    + now rewrite <- !app_assoc.
    + now rewrite <- !app_assoc.
    + exact Hnot.
  - intros e; split; discriminate.
Qed.

Lemma async_requires_webhook_witness :
  validate (JObj (obj_set minimal_doc "delivery" (JObj [("method", JStr "async")])))
    = Ok [err_webhook] /\
  In "delivery.webhook" (map path [err_webhook]).
Proof.
  split; [reflexivity|].
  apply (proj1 (async_requires_webhook minimal_doc [("method", JStr "async")]
                  (JStr "https://hook") eq_refl eq_refl eq_refl)).
  reflexivity.
Defined.

(** ** Serialisation round trip *)

Lemma is_ws_app a b : is_ws (a ++ b) = is_ws a && is_ws b.
Proof. induction a as [|c a IH]; simpl; [reflexivity|]. rewrite IH, andb_assoc. reflexivity. Qed.

Lemma is_ws_spaces n : is_ws (spaces n) = true.
Proof. induction n; simpl; auto. Qed.

Lemma is_ws_nl : is_ws nl = true.
Proof. reflexivity. Qed.

Lemma next_ws w ts : ws_toks w -> next (w ++ ts) = next ts.
Proof.
  induction 1 as [|t w [s [-> Hs]] _ IH]; simpl; [reflexivity|]. now rewrite Hs.
Qed.

Lemma ws_toks_lead gap sb : is_ws gap = true -> is_ws sb = true -> ws_toks (lead gap sb).
Proof.
  intros Hg Hs. unfold lead. destruct (String.eqb gap ""); constructor; auto.
  eexists; split; [reflexivity|]. now rewrite !is_ws_app, Hg, Hs.
Qed.

Lemma ws_toks_trail gap sb : is_ws sb = true -> ws_toks (trail gap sb).
Proof.
  intros Hs. unfold trail. destruct (String.eqb gap ""); constructor; auto.
  eexists; split; [reflexivity|]. now rewrite !is_ws_app, Hs.
Qed.

Lemma ws_toks_colon gap : ws_toks (if String.eqb gap "" then [] else [TWs " "]).
Proof. destruct (String.eqb gap ""); repeat constructor. exists " "; auto. Qed.

Lemma parse_value_ws f w ts : ws_toks w -> parse_value f (w ++ ts) = parse_value f ts.
Proof. intros Hw. destruct f; [reflexivity|]. cbn [parse_value]. now rewrite next_ws. Qed.

Lemma parse_elements_ws f acc w ts :
  ws_toks w -> parse_elements f acc (w ++ ts) = parse_elements f acc ts.
Proof. intros Hw. destruct f; [reflexivity|]. cbn [parse_elements]. now rewrite parse_value_ws. Qed.

Lemma parse_members_ws f acc w ts :
  ws_toks w -> parse_members f acc (w ++ ts) = parse_members f acc ts.
Proof. intros Hw. destruct f; [reflexivity|]. cbn [parse_members]. now rewrite next_ws. Qed.

Lemma join_cons sep p ps : ps <> [] -> join sep (p :: ps) = p ++ sep ++ join sep ps.
Proof. destruct ps; [congruence|reflexivity]. Qed.

Lemma wrap_nonempty op cl gap sb parts : parts <> [] ->
  wrap op cl gap sb parts
  = op :: lead gap sb ++ join (TComma :: lead gap sb) parts ++ trail gap sb ++ [cl].
Proof.
  intros Hp. unfold wrap, lead, trail. destruct parts as [|p ps]; [congruence|].
  destruct (String.eqb gap ""); reflexivity.
Qed.

Lemma ser_arr gap ind l :
  ser gap ind (JArr l) = Some (wrap TLBracket TRBracket gap ind (map (ser_elem gap (ind ++ gap)) l)).
Proof. reflexivity. Qed.

Lemma ser_obj gap ind o :
  ser gap ind (JObj o) = Some (wrap TLBrace TRBrace gap ind (flat_map (ser_member gap (ind ++ gap)) o)).
Proof. reflexivity. Qed.

Lemma ser_none gap ind x : ser gap ind x = None <-> x = JUndefined.
Proof. split; [|intros ->; reflexivity]. destruct x as [| |[]|[]| | |]; simpl; congruence. Qed.

Lemma ser_head gap ind x toks :
  ser gap ind x = Some toks -> exists t r, toks = t :: r /\ starts_value t = true.
Proof.
  destruct x as [| |[]|[]| |l|o]; simpl; intros H; try discriminate; injection H as <-;
    try (eexists; eexists; split; [reflexivity|reflexivity]).
  - unfold wrap. destruct (map _ l); [|destruct (String.eqb gap "")]; eauto.
  - unfold wrap. destruct (flat_map _ o); [|destruct (String.eqb gap "")]; eauto.
Qed.

Lemma ser_elem_head gap ind x : exists t r, ser_elem gap ind x = t :: r /\ starts_value t = true.
Proof.
  unfold ser_elem. destruct (ser gap ind x) eqn:E; [now apply ser_head in E|eauto].
Qed.

Lemma next_value t r rest : starts_value t = true -> next ((t :: r) ++ rest) = Some (t, r ++ rest).
Proof. destruct t; simpl; congruence. Qed.

Lemma next_join sep p ps ts t r :
  p = t :: r -> starts_value t = true -> exists r', next (join sep (p :: ps) ++ ts) = Some (t, r').
Proof. intros -> Ht. destruct ps; simpl; destruct t; try discriminate; eexists; reflexivity. Qed.

Lemma flat_map_member_head gap ind o p ps :
  flat_map (ser_member gap ind) o = p :: ps -> exists k r, p = TString k :: r.
Proof.
  induction o as [|[k x] o IH]; simpl; [discriminate|].
  unfold ser_member at 1; simpl. destruct (ser gap ind x); simpl; [|exact IH].
  intros H; injection H as <- _. eauto.
Qed.

Lemma fold_norm_step_skip gap ind o acc :
  flat_map (ser_member gap ind) o = [] -> fold_left norm_step o acc = acc.
Proof.
  revert acc. induction o as [|[k x] o IH]; intros acc; simpl; [reflexivity|].
  unfold ser_member at 1; simpl. destruct (ser gap ind x) eqn:E; simpl; [discriminate|].
  apply ser_none in E as ->. apply IH.
Qed.

Lemma norm_arr l : norm (JArr l) = JArr (map norm_el l).
Proof. reflexivity. Qed.

Lemma norm_obj o : norm (JObj o) = JObj (fold_left norm_step o []).
Proof. reflexivity. Qed.

Ltac lens H :=
  simpl in H; rewrite ?length_app in H; simpl in H; rewrite ?length_app in H; simpl in H.

Ltac len_solve :=
  repeat rewrite length_app in *; simpl in *; repeat rewrite length_app in *; simpl in *; lia.

Section Join.
Variables (sep w2 : list token).
Hypothesis Hsep : ws_toks sep.
Hypothesis Hw2 : ws_toks w2.

Lemma parse_elements_join (e : jsval -> list token) l :
  Forall (fun x => forall fuel rest, length (e x) < fuel ->
            parse_value fuel (e x ++ rest) = Some (norm_el x, rest)) l ->
  l <> [] ->
  forall fuel acc rest,
  length (join (TComma :: sep) (map e l) ++ w2 ++ [TRBracket]) < fuel ->
  parse_elements fuel acc (join (TComma :: sep) (map e l) ++ w2 ++ TRBracket :: rest)
  = Some (JArr (acc ++ map norm_el l), rest).
Proof.
  induction 1 as [|x l Hx Hl IH]; [congruence|]. intros _ fuel acc rest Hlen.
  destruct fuel as [|f]; [lia|]. cbn [parse_elements].
  destruct l as [|y l'].
  - simpl in Hlen |- *. lens Hlen.
    rewrite Hx by lia. rewrite next_ws by exact Hw2. reflexivity.
  - rewrite map_cons, join_cons in Hlen |- * by (simpl; congruence).
    lens Hlen.
    rewrite <- !app_assoc. rewrite Hx by lia. cbn [app next].
    rewrite parse_elements_ws by exact Hsep.
    rewrite IH by (try congruence; rewrite !length_app; simpl; lia).
    rewrite <- app_assoc. reflexivity.
Qed.

Lemma parse_members_join gap ind o :
  Forall (fun kx => forall toks fuel rest, ser gap ind (snd kx) = Some toks -> length toks < fuel ->
            parse_value fuel (toks ++ rest) = Some (norm (snd kx), rest)) o ->
  flat_map (ser_member gap ind) o <> [] ->
  forall fuel acc rest,
  length (join (TComma :: sep) (flat_map (ser_member gap ind) o) ++ w2 ++ [TRBrace]) < fuel ->
  parse_members fuel acc (join (TComma :: sep) (flat_map (ser_member gap ind) o) ++ w2 ++ TRBrace :: rest)
  = Some (JObj (fold_left norm_step o acc), rest).
Proof.
  induction 1 as [|[k x] o Hx Ho IH]; [simpl; congruence|]. intros Hne fuel acc rest Hlen.
  simpl in Hx. cbn [fold_left].
  destruct (ser gap ind x) as [t|] eqn:Ex.
  2:{ apply ser_none in Ex as ->.
      assert (Hm : flat_map (ser_member gap ind) ((k, JUndefined) :: o) = flat_map (ser_member gap ind) o)
        by (simpl; unfold ser_member at 1; reflexivity).
      rewrite Hm in Hne, Hlen |- *. apply IH; assumption. }
  assert (Hu : norm_step acc (k, x) = obj_set acc k (norm x)).
  { unfold norm_step. simpl. destruct x; try reflexivity. discriminate. }
  rewrite Hu.
  set (C := if String.eqb gap "" then [] else [TWs " "]).
  assert (Hm : flat_map (ser_member gap ind) ((k, x) :: o)
               = ([TString k; TColon] ++ C ++ t) :: flat_map (ser_member gap ind) o)
    by (cbn [flat_map]; unfold ser_member at 1; cbn [snd fst]; rewrite Ex; reflexivity).
  rewrite Hm in Hlen |- *. clear Hm Hne.
  destruct fuel as [|f]; [lia|]. cbn [parse_members].
  destruct (flat_map (ser_member gap ind) o) as [|p ps] eqn:Ho'.
  - cbn [join app next] in Hlen |- *. lens Hlen.
    rewrite <- !app_assoc. rewrite parse_value_ws by apply ws_toks_colon.
    rewrite (Hx t) by (auto; lia). rewrite next_ws by exact Hw2.
    rewrite (fold_norm_step_skip gap ind) by exact Ho'. reflexivity.
  - rewrite join_cons in Hlen |- * by congruence.
    cbn [app next] in Hlen |- *. lens Hlen.
    rewrite <- !app_assoc. rewrite parse_value_ws by apply ws_toks_colon.
    rewrite (Hx t) by (auto; lia). cbn [app next].
    rewrite <- app_assoc, (parse_members_ws _ _ sep) by exact Hsep.
    apply IH; [congruence|]. rewrite !length_app. simpl. lia.
Qed.

End Join.

Lemma parse_ser v : forall gap ind toks fuel rest,
  is_ws gap = true -> is_ws ind = true -> ser gap ind v = Some toks -> length toks < fuel ->
  parse_value fuel (toks ++ rest) = Some (norm v, rest).
Proof.
  induction v as [v Hv|l IH|o IH] using jsval_ind'; intros gap ind toks fuel rest Hg Hi Hs Hlen.
  - destruct fuel as [|f]; [lia|].
    destruct v as [| |[]|[]| | |]; try contradiction; simpl in Hs; try discriminate;
      injection Hs as <-; reflexivity.
  - rewrite ser_arr in Hs. injection Hs as <-.
    destruct fuel as [|f]; [lia|].
    destruct l as [|x l'].
    + reflexivity.
    + rewrite wrap_nonempty in Hlen |- * by (simpl; congruence).
      rewrite map_cons in Hlen |- *.
      destruct (ser_elem_head gap (ind ++ gap)%string x) as [t [r [Ht Hst]]].
      set (L := lead gap ind) in *. set (T := trail gap ind) in *.
      set (J := join (TComma :: L) (ser_elem gap (ind ++ gap)%string x :: map (ser_elem gap (ind ++ gap)%string) l')) in *.
      assert (HL : ws_toks L) by (apply ws_toks_lead; assumption).
      assert (HT : ws_toks T) by (apply ws_toks_trail; assumption).
      destruct (next_join (TComma :: L) _ (map (ser_elem gap (ind ++ gap)%string) l') (T ++ TRBracket :: rest) t r Ht Hst)
        as [r' Hn].
      fold J in Hn.
      cbn [app parse_value next]. rewrite <- !app_assoc. cbn [app].
      rewrite (next_ws L), Hn by exact HL.
      destruct t; try discriminate; (cbv iota beta;
        rewrite (parse_elements_ws _ _ L) by exact HL; rewrite norm_arr; subst J;
        rewrite <- map_cons; (rewrite parse_elements_join; [reflexivity| exact HL | exact HT | | congruence |]);
        [ apply Forall_impl with (2 := IH); intros y Hy fuel' rest' Hlen';
          unfold ser_elem in Hlen' |- *; destruct (ser gap (ind ++ gap)%string y) as [ty|] eqn:Ey;
          [ rewrite (Hy gap (ind ++ gap)%string ty) by (rewrite ?is_ws_app, ?Hg, ?Hi; auto);
            destruct y; try reflexivity; discriminate
          | apply ser_none in Ey as ->; destruct fuel' as [|f']; [simpl in Hlen'; lia | reflexivity] ]
        | len_solve ]).
  - rewrite ser_obj in Hs. injection Hs as <-.
    destruct fuel as [|f]; [lia|].
    destruct (flat_map (ser_member gap (ind ++ gap)%string) o) as [|p ps] eqn:Ho.
    + rewrite norm_obj, (fold_norm_step_skip gap (ind ++ gap)%string) by exact Ho. reflexivity.
    + rewrite wrap_nonempty in Hlen |- * by congruence.
      destruct (flat_map_member_head _ _ _ _ _ Ho) as [k [r Hp]].
      set (L := lead gap ind) in *. set (T := trail gap ind) in *.
      assert (HL : ws_toks L) by (apply ws_toks_lead; assumption).
      assert (HT : ws_toks T) by (apply ws_toks_trail; assumption).
      destruct (next_join (TComma :: L) p ps (T ++ TRBrace :: rest) (TString k) r Hp eq_refl)
        as [r' Hn].
      cbn [app parse_value next]. rewrite <- !app_assoc. cbn [app].
      rewrite (next_ws L), Hn by exact HL. cbv iota beta.
      rewrite (parse_members_ws _ _ L) by exact HL. rewrite norm_obj.
      rewrite <- Ho. rewrite <- Ho in Hlen.
      rewrite (parse_members_join L T HL HT gap (ind ++ gap)%string); [reflexivity| | congruence |].
      * apply Forall_impl with (2 := IH); intros [k' y] Hy toks fuel' rest' Hs' Hlen'.
        apply (Hy gap (ind ++ gap)%string); auto. rewrite is_ws_app, Hg, Hi. reflexivity.
      * len_solve.
Qed.

Lemma JSON_parse_ser gap v toks :
  is_ws gap = true -> ser gap "" v = Some toks -> JSON_parse toks = Some (norm v).
Proof.
  intros Hg Hs. unfold JSON_parse.
  pose proof (parse_ser v gap "" toks (S (length toks)) [] Hg eq_refl Hs) as H.
  rewrite app_nil_r in H. rewrite H by lia. reflexivity.
Qed.

(** Field-wise equality relates values of the same kind. *)

Lemma feq_shape x y : fieldwise_eq x y ->
  x = y \/ (exists l1 l2, x = JArr l1 /\ y = JArr l2) \/ (exists o1 o2, x = JObj o1 /\ y = JObj o2).
Proof. destruct 1; eauto 6. Qed.

Ltac feq_cases H :=
  destruct (feq_shape _ _ H) as [<-|[[? [? [-> ->]]]|[? [? [-> ->]]]]]; reflexivity.

Lemma typeof_feq x y : fieldwise_eq x y -> typeof x = typeof y.
Proof. intros H. feq_cases H. Qed.
Lemma truthy_feq x y : fieldwise_eq x y -> truthy x = truthy y.
Proof. intros H. feq_cases H. Qed.
Lemma is_undefined_feq x y : fieldwise_eq x y -> is_undefined x = is_undefined y.
Proof. intros H. feq_cases H. Qed.
Lemma is_str_feq x y s : fieldwise_eq x y -> is_str x s = is_str y s.
Proof. intros H. feq_cases H. Qed.
Lemma includes_feq x y l : fieldwise_eq x y -> includes l x = includes l y.
Proof. intros H. unfold includes. induction l; simpl; [reflexivity|]. now rewrite IHl, (is_str_feq x y). Qed.
Lemma not_object_feq x y : fieldwise_eq x y -> not_object x = not_object y.
Proof. intros H. unfold not_object. now rewrite (truthy_feq x y), (typeof_feq x y). Qed.
Lemma not_nonempty_string_feq x y : fieldwise_eq x y -> not_nonempty_string x = not_nonempty_string y.
Proof. intros H. unfold not_nonempty_string. now rewrite (truthy_feq x y), (typeof_feq x y). Qed.

Lemma Forall2_nth_feq l1 l2 i : Forall2 fieldwise_eq l1 l2 ->
  fieldwise_eq (nth i l1 JUndefined) (nth i l2 JUndefined).
Proof.
  intros H. revert i. induction H as [|x y l1 l2 Hxy _ IH]; intros [|i]; simpl; auto using fe_refl.
Qed.

Lemma get_feq a b k : fieldwise_eq a b ->
  (exists x y, get a k = Ok x /\ get b k = Ok y /\ fieldwise_eq x y) \/
  (exists e, get a k = Throw e /\ get b k = Throw e).
Proof.
  destruct 1 as [v|l1 l2 H|o1 o2 H].
  - destruct (get v k); [left|right]; eauto 6 using fe_refl.
  - left. simpl. destruct (String.eqb k "length").
    + rewrite (Forall2_length H). do 2 eexists; split; [reflexivity|split; [reflexivity|apply fe_refl]].
    + destruct (array_index k); do 2 eexists; (split; [reflexivity|split; [reflexivity|]]);
        auto using fe_refl, Forall2_nth_feq.
  - left. specialize (H k). unfold prop in H. simpl.
    destruct (lookup o1 k), (lookup o2 k); do 2 eexists; eauto.
Qed.

Ltac feq_step :=
  match goal with
  | H : fieldwise_eq ?a ?b |- context [get ?a ?k] =>
      let x := fresh "x" in let y := fresh "y" in let Hxy := fresh "Hxy" in
      let e := fresh "e" in let Ha := fresh "Ha" in let Hb := fresh "Hb" in
      destruct (get_feq a b k H) as [[x [y [Ha [Hb Hxy]]]]|[e [Ha Hb]]];
      rewrite Ha, Hb; cbn [bind];
      try rewrite ?(typeof_feq _ _ Hxy), ?(truthy_feq _ _ Hxy), ?(is_undefined_feq _ _ Hxy),
        ?(is_str_feq _ _ _ Hxy), ?(includes_feq _ _ _ Hxy), ?(not_object_feq _ _ Hxy),
        ?(not_nonempty_string_feq _ _ Hxy)
  end.

Lemma validate_feq a b : fieldwise_eq a b -> validate a = validate b.
Proof.
  intros H. unfold validate. rewrite (not_object_feq a b H).
  destruct (not_object b); [reflexivity|].
  unfold check_iap_version, check_task_id, check_sender, check_task, check_delivery,
    check_output, check_on_failure.
  repeat feq_step; reflexivity.
Qed.

Lemma existsb_keys_lookup k o : existsb (String.eqb k) (map fst o) = false -> lookup o k = None.
Proof.
  induction o as [|[k' x] o IH]; simpl; [reflexivity|].
  intros H. apply orb_false_iff in H as [H1 H2]. rewrite String.eqb_sym, H1. auto.
Qed.

Lemma lookup_fold_norm o acc k : nodupb (map fst o) = true ->
  lookup (fold_left norm_step o acc) k
  = match lookup o k with
    | Some x => if is_undefined x then lookup acc k else Some (norm x)
    | None => lookup acc k
    end.
Proof.
  revert acc. induction o as [|[k' x] o IH]; intros acc Hnd; simpl in *; [reflexivity|].
  apply andb_true_iff in Hnd as [Hn Hnd]. apply negb_true_iff in Hn.
  rewrite IH by exact Hnd. unfold norm_step; simpl.
  destruct (String.eqb k' k) eqn:E.
  - apply String.eqb_eq in E as <-. rewrite existsb_keys_lookup by exact Hn.
    destruct (is_undefined x); [reflexivity|]. apply lookup_obj_set_same.
  - assert (Hne : k' <> k) by (intros ->; rewrite String.eqb_refl in E; discriminate).
    destruct (lookup o k) as [y|]; [destruct (is_undefined y); [|reflexivity]|];
      destruct (is_undefined x); try reflexivity; apply lookup_obj_set_other; exact Hne.
Qed.

Lemma lookup_in o k x : lookup o k = Some x -> In (k, x) o.
Proof.
  induction o as [|[k' y] o IH]; simpl; [discriminate|].
  destruct (String.eqb k' k) eqn:E; [|auto].
  apply String.eqb_eq in E as ->. intros H; injection H as ->. auto.
Qed.

Lemma norm_feq v : json_safe v = true -> fieldwise_eq (norm v) v.
Proof.
  induction v as [v Hv|l IH|o IH] using jsval_ind'; intros Hs.
  - destruct v as [| | |[]| | |]; try contradiction; try discriminate; apply fe_refl.
  - rewrite norm_arr. apply fe_arr. simpl in Hs.
    induction IH as [|x l Hx _ IHl]; simpl in *; constructor.
    + apply andb_true_iff in Hs as [[Hu Hx'] %andb_true_iff _].
      destruct x; try discriminate; apply Hx; exact Hx'.
    + apply IHl. apply andb_true_iff in Hs as [_ Hs]. exact Hs.
  - rewrite norm_obj. apply fe_obj. intros k. simpl in Hs.
    apply andb_true_iff in Hs as [Hnd Hs]. unfold prop.
    rewrite lookup_fold_norm by exact Hnd.
    destruct (lookup o k) as [x|] eqn:E; [|apply fe_refl].
    destruct (is_undefined x) eqn:Hu.
    + destruct x; try discriminate. apply fe_refl.
    + apply lookup_in in E. rewrite Forall_forall in IH. apply (IH (k, x) E).
      rewrite forallb_forall in Hs. apply (Hs (k, x) E).
Qed.

Lemma feq_obj_inv o1 o2 k : fieldwise_eq (JObj o1) (JObj o2) -> fieldwise_eq (prop o1 k) (prop o2 k).
Proof. intros H. inversion H; subst; [apply fe_refl | auto]. Qed.

(** C5 (counterexample): a conformant document whose token budget is NaN
    (a number, as [tokenBudget(NaN)] accepts) serialises, in both modes,
    to a text that [parse] accepts, but the budget comes back as [null]:
    the document read back is not field-wise equal to the original. *)
Lemma roundtrip_nan_counterexample :
  validate nan_doc = Ok [] /\
  (exists txt, toJSON nan_doc true = Some txt /\ parse txt = Ok nan_doc_reparsed) /\
  (exists txt, toJSON nan_doc false = Some txt /\ parse txt = Ok nan_doc_reparsed) /\
  ~ fieldwise_eq nan_doc_reparsed nan_doc.
Proof.
  split; [reflexivity|]. split; [eexists; split; reflexivity|].
  split; [eexists; split; reflexivity|].
  intros H. apply (feq_obj_inv _ _ "constraints") in H. cbn in H.
  apply (feq_obj_inv _ _ "token_budget") in H. cbn in H. inversion H.
Qed.

(** C5 (amended): for every conformant document [d] that JSON represents
    exactly (finite numbers only, no [undefined] array element, no repeated
    key), in both pretty and compact mode, [toJSON(d)] is a JSON text,
    [parse] accepts it and returns [norm d], and [norm d] is field-wise
    equal to [d] (properties whose value is [undefined] are absent from it
    and read back [undefined]). *)
Theorem toJSON_parse_roundtrip (d : jsval) (pretty : bool) :
  validate d = Ok [] -> json_safe d = true ->
  exists txt, toJSON d pretty = Some txt /\ parse txt = Ok (norm d) /\ fieldwise_eq (norm d) d.
Proof.
  intros Hv Hs.
  set (gap := match (if pretty then Some 2%nat else None) with
              | Some n => spaces (Nat.min 10 n)
              | None => ""
              end).
  assert (Hg : is_ws gap = true) by (subst gap; destruct pretty; [apply is_ws_spaces | reflexivity]).
  destruct (ser gap "" d) as [toks|] eqn:Et.
  2:{ apply ser_none in Et. subst d. discriminate Hv. }
  exists toks. split; [exact Et|].
  pose proof (norm_feq d Hs) as Hf. split; [|exact Hf].
  unfold parse. rewrite (JSON_parse_ser gap d toks Hg Et). cbn [bind].
  rewrite (validate_feq _ _ Hf), Hv. reflexivity.
Qed.

Lemma toJSON_parse_roundtrip_witness :
  validate full_doc = Ok [] /\ json_safe full_doc = true /\
  exists txt, toJSON full_doc true = Some txt /\ parse txt = Ok (norm full_doc) /\
              fieldwise_eq (norm full_doc) full_doc.
Proof.
  split; [reflexivity|]. split; [reflexivity|].
  apply (toJSON_parse_roundtrip full_doc true); reflexivity.
Defined.

(** C6 (code_bug): the JSON text [{"delivery":null}] is syntactically
    valid JSON, and [validate] yields no list of errors for it; yet [parse]
    fails, with neither the JSON-only message nor the aggregate
    "Invalid IAP task" message but with the engine's TypeError. *)
Theorem parse_null_delivery_throws :
  JSON_parse [TLBrace; TString "delivery"; TColon; TNull; TRBrace]
    = Some (JObj [("delivery", JNull)]) /\
  parse [TLBrace; TString "delivery"; TColon; TNull; TRBrace]
    = Throw (TypeError "Cannot read properties of null (reading 'method')").
Proof. split; reflexivity. Qed.

(** * Further properties of the code *)





Lemma includes_in l s : In s l -> includes l (JStr s) = true.
Proof. intros H. unfold includes. simpl. apply existsb_exists. exists s. split; [exact H|apply String.eqb_refl]. Qed.










Lemma get_obj o k : get (JObj o) k = Ok (prop o k).
Proof. unfold get, prop. destruct (lookup o k); reflexivity. Qed.

Ltac ok_case :=
  repeat (unfold bind; simpl;
          match goal with
          | |- context [match ?x with _ => _ end] =>
              match type of x with result _ => fail | _ => destruct x end
          end);
  unfold bind; simpl; eauto.

Lemma not_object_false v : not_object v = false -> v <> JNull /\ v <> JUndefined.
Proof. destruct v; simpl; intros H; try discriminate; split; discriminate. Qed.

Lemma get_ok v k : v <> JNull -> v <> JUndefined -> exists x, get v k = Ok x.
Proof.
  intros H1 H2. destruct v; try congruence; simpl; eauto.
  - destruct (String.eqb k "length"); [eauto|].
    destruct (array_index k) as [i|]; [destruct (String.get i s)|]; eauto.
  - destruct (String.eqb k "length"); [eauto|]. destruct (array_index k); eauto.
  - destruct (lookup o k); eauto.
Qed.

Lemma check_iap_version_obj o acc : exists es, check_iap_version (JObj o) acc = Ok es.
Proof. unfold check_iap_version. rewrite get_obj. simpl. eauto. Qed.

Lemma check_task_id_obj o acc : exists es, check_task_id (JObj o) acc = Ok es.
Proof. unfold check_task_id. rewrite get_obj. simpl. eauto. Qed.

Lemma check_sender_obj o acc : exists es, check_sender (JObj o) acc = Ok es.
Proof.
  unfold check_sender. rewrite get_obj. simpl.
  destruct (not_object (prop o "sender")) eqn:E; [eauto|].
  destruct (not_object_false _ E) as [H1 H2].
  destruct (get_ok _ "agent_id" H1 H2) as [x ->]. simpl. eauto.
Qed.

Lemma check_task_obj o acc : exists es, check_task (JObj o) acc = Ok es.
Proof.
  unfold check_task. rewrite get_obj. simpl.
  destruct (not_object (prop o "task")) eqn:E; [eauto|].
  destruct (not_object_false _ E) as [H1 H2].
  destruct (get_ok _ "intent" H1 H2) as [x ->]. simpl. eauto.
Qed.

Lemma check_delivery_obj o acc :
  (prop o "delivery" = JNull -> exists m, check_delivery (JObj o) acc = Throw (TypeError m)) /\
  (prop o "delivery" <> JNull -> exists es, check_delivery (JObj o) acc = Ok es).
Proof.
  unfold check_delivery. rewrite get_obj.
  destruct (prop o "delivery") as [| | | | | |d];
    (split; intros H; [try discriminate|try congruence]); [ok_case ..|].
  unfold bind at 1; cbn -[get]. rewrite ?get_obj.
  generalize (prop d "method") (prop d "webhook") (prop d "email"); intros m w em.
  unfold bind; cbn -[is_str truthy includes pushif].
  destruct (is_str m "async"), (is_str m "email"); eauto.
Qed.

Lemma check_output_obj o acc :
  (prop o "output" = JNull -> exists m, check_output (JObj o) acc = Throw (TypeError m)) /\
  (prop o "output" <> JNull -> exists es, check_output (JObj o) acc = Ok es).
Proof.
  unfold check_output. rewrite get_obj.
  destruct (prop o "output"); (split; intros H; [try discriminate|try congruence]);
    unfold bind at 1; cbn -[get]; rewrite ?get_obj; ok_case.
Qed.

Lemma check_on_failure_obj o acc :
  (prop o "on_failure" = JNull -> exists m, check_on_failure (JObj o) acc = Throw (TypeError m)) /\
  (prop o "on_failure" <> JNull -> exists es, check_on_failure (JObj o) acc = Ok es).
Proof.
  unfold check_on_failure. rewrite get_obj.
  destruct (prop o "on_failure"); (split; intros H; [try discriminate|try congruence]);
    unfold bind at 1; cbn -[get]; rewrite ?get_obj; ok_case.
Qed.

Lemma null_dec (v : jsval) : v = JNull \/ v <> JNull.
Proof. destruct v; (left; reflexivity) || (right; discriminate). Qed.

Lemma validate_non_obj t : (forall o, t <> JObj o) -> exists es, validate t = Ok es.
Proof.
  intros H. destruct t; [..|exfalso; eapply H; reflexivity];
    unfold validate, not_object; simpl; rewrite ?Bool.orb_true_r; eexists; reflexivity.
Qed.

Lemma validate_throws_char (t : jsval) :
  (forall e, validate t = Throw e -> exists m, e = TypeError m) /\
  ((exists e, validate t = Throw e) <->
   exists o, t = JObj o /\
     (prop o "delivery" = JNull \/ prop o "output" = JNull \/ prop o "on_failure" = JNull)).
Proof.
  destruct t as [| | b | n | s | l | o];
    [match goal with |- context [validate ?t] =>
       destruct (validate_non_obj t) as [es Hes]; [intros o' Ho'; discriminate Ho'|rewrite Hes]
     end;
     split; [intros e He; discriminate He
            |split; [intros [e He]; discriminate He|intros (o & Ho & _); discriminate Ho]] ..|].
  - rewrite validate_split by reflexivity.
    destruct (check_iap_version_obj o []) as [p1 ->].
    destruct (check_task_id_obj o []) as [p2 ->].
    destruct (check_sender_obj o []) as [p3 ->].
    destruct (check_task_obj o []) as [p4 ->]. simpl.
    destruct (check_delivery_obj o []) as [D1 D2].
    destruct (check_output_obj o []) as [O1 O2].
    destruct (check_on_failure_obj o []) as [F1 F2].
    destruct (null_dec (prop o "delivery")) as [Hd|Hd];
      [destruct (D1 Hd) as [m ->]; simpl;
       split; [intros e [= <-]; eauto|split; [intros _; eauto|eauto]]|].
    destruct (D2 Hd) as [d ->]. simpl.
    destruct (null_dec (prop o "output")) as [Ho|Ho];
      [destruct (O1 Ho) as [m ->]; simpl;
       split; [intros e [= <-]; eauto|split; [intros _; eauto|eauto]]|].
    destruct (O2 Ho) as [op ->]. simpl.
    destruct (null_dec (prop o "on_failure")) as [Hf|Hf];
      [destruct (F1 Hf) as [m ->]; simpl;
       split; [intros e [= <-]; eauto|split; [intros _; eauto|eauto]]|].
    destruct (F2 Hf) as [f ->]. simpl.
    split; [intros e He; discriminate He|].
    split; [intros [e He]; discriminate He|].
    intros (o' & Ho' & Hn). injection Ho' as <-. tauto.
Qed.

Lemma createTask_validate_ok opts id : exists es, validate (createTask opts id) = Ok es.
Proof.
  destruct (validate (createTask opts id)) as [es|e] eqn:E; [eauto|].
  exfalso.
  destruct (proj1 (proj2 (validate_throws_char (createTask opts id))) (ex_intro _ e E))
    as (o & Ho & Hn).
  unfold createTask in Ho. injection Ho as <-.
  unfold prop in Hn; simpl in Hn.
  destruct (opt_delivery opts), (opt_output opts), (opt_on_failure opts);
    simpl in Hn; intuition discriminate.
Qed.

Lemma build_createTask b id d :
  TaskBuilder.build b id = Ok d ->
  exists s tk, TaskBuilder._sender b = Some s /\ TaskBuilder._task b = Some tk /\
    d = createTask (mkCreateTaskOptions (TaskBuilder._taskId b) s (TaskBuilder._delivery b) tk
                      (TaskBuilder._constraints b) (TaskBuilder._successCriteria b)
                      (TaskBuilder._output b) (TaskBuilder._onFailure b)) id.
Proof.
  unfold TaskBuilder.build.
  destruct (TaskBuilder._sender b) as [s|]; [|discriminate].
  destruct (negb (truthy (TaskBuilder.task_intent b))); [discriminate|].
  destruct (TaskBuilder._task b) as [tk|]; [|discriminate].
  intros [= <-]. eauto.
Qed.

(** [deliverTo] on a builder with no output yet makes an output object
    without [format]: the built document always carries the
    [output.format] error. *)
Theorem deliverTo_without_output_invalid (b : TaskBuilder.t) (loc id : string) (d : jsval) :
  TaskBuilder._output b = None ->
  TaskBuilder.build (TaskBuilder.deliverTo b loc) id = Ok d ->
  exists es, validate d = Ok es /\ In err_format es.
Proof.
  intros Ho Hb.
  destruct (build_createTask _ _ _ Hb) as (s & tk & _ & _ & ->).
  destruct (createTask_validate_ok
              (mkCreateTaskOptions (TaskBuilder._taskId (TaskBuilder.deliverTo b loc)) s
                 (TaskBuilder._delivery (TaskBuilder.deliverTo b loc)) tk
                 (TaskBuilder._constraints (TaskBuilder.deliverTo b loc))
                 (TaskBuilder._successCriteria (TaskBuilder.deliverTo b loc))
                 (TaskBuilder._output (TaskBuilder.deliverTo b loc))
                 (TaskBuilder._onFailure (TaskBuilder.deliverTo b loc))) id) as [es Hes].
  exists es. split; [exact Hes|].
  unfold createTask in Hes.
  destruct (validate_obj_blocks _ _ Hes) as (_ & (op & Hop & Hu) & _).
  unfold check_output in Hop. simpl in Hop.
  unfold TaskBuilder.deliverTo, TaskBuilder.set_output in Hop. simpl in Hop.
  rewrite Ho in Hop. simpl in Hop. injection Hop as <-.
  assert (Hin : In err_format (errors_under "output" es)) by (rewrite Hu; left; reflexivity).
  unfold errors_under in Hin. apply filter_In in Hin. tauto.
Qed.

Lemma deliverTo_without_output_invalid_witness :
  exists es,
    validate (JObj [("iap_version", JStr "0.2"); ("task_id", JStr "t-1");
                    ("sender", JObj [("agent_id", JStr "a"); ("email", JUndefined);
                                     ("framework", JUndefined)]);
                    ("delivery", JUndefined); ("task", JObj [("intent", JStr "x")]);
                    ("constraints", JUndefined); ("success_criteria", JUndefined);
                    ("output", JObj [("deliver_to", JStr "s3://out")]);
                    ("on_failure", JUndefined)]) = Ok es /\ In err_format es.
Proof.
  apply (deliverTo_without_output_invalid
           (TaskBuilder.intent (TaskBuilder.from TaskBuilder.empty "a" None None) "x")
           "s3://out" "t-1"); reflexivity.
Defined.

(** [onFailure(action, options)] builds [{ action, ...options }]: a
    property of [options] wins over the [action] argument, also for the
    key [action] itself. *)
Theorem onFailure_options_override (b : TaskBuilder.t) (action : string) (o : obj) (k : string) :
  NoDup (keys o) ->
  opt_lookup (TaskBuilder._onFailure (TaskBuilder.onFailure b action (Some o))) k =
    match lookup o k with
    | Some v => Some v
    | None => if String.eqb k "action" then Some (JStr action) else None
    end.
Proof.
  intros Hnd. simpl. rewrite lookup_spread_into by exact Hnd.
  destruct (lookup o k); [reflexivity|]. simpl.
  rewrite String.eqb_sym. destruct (String.eqb k "action"); reflexivity.
Qed.

Lemma onFailure_options_override_witness :
  opt_lookup (TaskBuilder._onFailure
                (TaskBuilder.onFailure TaskBuilder.empty "retry"
                   (Some [("action", JStr "abort"); ("max_retries", JNum (Fin 3))]))) "action"
  = Some (JStr "abort").
Proof.
  rewrite (onFailure_options_override _ _ _ _); [reflexivity|].
  repeat constructor; simpl; intuition discriminate.
Defined.

Lemma addCriterion_fold_gen (cs : list string) : forall b,
  fold_left TaskBuilder.addCriterion cs b =
    match cs with
    | [] => b
    | _ => TaskBuilder.set_successCriteria b
             (Some (match TaskBuilder._successCriteria b with Some l => l | None => [] end ++ cs))
    end.
Proof.
  induction cs as [|c cs IH]; intros b; [reflexivity|]. simpl. rewrite IH.
  destruct cs as [|c' cs']; [reflexivity|]. simpl.
  rewrite <- app_assoc. reflexivity.
Qed.

(** A run of [addCriterion] calls appends its criteria, in call order, to
    the criteria already set (none if unset), and changes no other field. *)
Theorem addCriterion_appends (b : TaskBuilder.t) (cs : list string) :
  cs <> [] ->
  fold_left TaskBuilder.addCriterion cs b =
    TaskBuilder.set_successCriteria b
      (Some (match TaskBuilder._successCriteria b with Some l => l | None => [] end ++ cs)).
Proof.
  intros Hne. rewrite addCriterion_fold_gen. destruct cs; [congruence|reflexivity].
Qed.

Lemma addCriterion_appends_witness :
  fold_left TaskBuilder.addCriterion ["tests pass"; "docs updated"]
    (TaskBuilder.successCriteria TaskBuilder.empty ["compiles"]) =
  TaskBuilder.successCriteria TaskBuilder.empty ["compiles"; "tests pass"; "docs updated"].
Proof.
  rewrite (addCriterion_appends _ ["tests pass"; "docs updated"]); [reflexivity|discriminate].
Defined.

(** [validate] reads only the seven keys of [validated_keys]: setting any
    other property leaves its result unchanged. *)
Theorem validate_ignores_other_keys (o : obj) (k : string) (v : jsval) :
  ~ In k validated_keys ->
  validate (JObj (obj_set o k v)) = validate (JObj o).
Proof.
  intros Hk.
  rewrite !validate_split by reflexivity.
  rewrite check_iap_version_frame, check_task_id_frame, check_sender_frame, check_task_frame,
    check_delivery_frame, check_output_frame, check_on_failure_frame
    by (intros ->; apply Hk; simpl; tauto).
  reflexivity.
Qed.

Lemma validate_ignores_other_keys_witness :
  validate (JObj (obj_set minimal_doc "constraints" (JStr "none"))) = validate (JObj minimal_doc).
Proof. apply validate_ignores_other_keys. simpl. intuition discriminate. Defined.

Lemma stringify_parse (v : jsval) (space : option nat) :
  match JSON_stringify v space with
  | Some txt => JSON_parse txt = Some (norm v)
  | None => v = JUndefined
  end.
Proof.
  unfold JSON_stringify.
  set (gap := match space with Some n => spaces (Nat.min 10 n) | None => "" end).
  assert (Hg : is_ws gap = true) by (subst gap; destruct space; [apply is_ws_spaces|reflexivity]).
  destruct (ser gap "" v) as [toks|] eqn:E.
  - exact (JSON_parse_ser gap v toks Hg E).
  - exact (proj1 (ser_none gap "" v) E).
Qed.

Lemma strip_ws_app a b : strip_ws (a ++ b) = strip_ws a ++ strip_ws b.
Proof. apply filter_app. Qed.

Lemma strip_join sep ps : strip_ws (join sep ps) = join (strip_ws sep) (map strip_ws ps).
Proof.
  induction ps as [|p ps IH]; [reflexivity|].
  destruct ps as [|p' ps']; [reflexivity|].
  change (strip_ws (p ++ sep ++ join sep (p' :: ps')) =
          strip_ws p ++ strip_ws sep ++ join (strip_ws sep) (map strip_ws (p' :: ps'))).
  rewrite !strip_ws_app, IH. reflexivity.
Qed.

Lemma strip_wrap op cl gap sb ps :
  is_ws_tok op = false -> is_ws_tok cl = false ->
  strip_ws (wrap op cl gap sb ps) = wrap op cl "" "" (map strip_ws ps).
Proof.
  intros Ho Hc. destruct ps as [|p ps].
  - simpl. unfold strip_ws. simpl. rewrite Ho, Hc. reflexivity.
  - unfold wrap. cbv zeta. simpl map. destruct (String.eqb gap "").
    + change (strip_ws ([op] ++ join [TComma] (p :: ps) ++ [cl]) =
              [op] ++ join [TComma] (map strip_ws (p :: ps)) ++ [cl]).
      rewrite !strip_ws_app, strip_join. unfold strip_ws at 1 3 4. simpl. rewrite Ho, Hc.
      reflexivity.
    + match goal with |- strip_ws (op :: ?w :: join ?s (p :: ps) ++ [?w'; cl]) = _ =>
        change (strip_ws ([op] ++ [w] ++ join s (p :: ps) ++ [w'] ++ [cl]) =
                [op] ++ join [TComma] (map strip_ws (p :: ps)) ++ [cl]) end.
      rewrite !strip_ws_app, strip_join. unfold strip_ws at 1 2 3 5 6. simpl. rewrite Ho, Hc.
      reflexivity.
Qed.

Lemma flat_map_cons1 {A B} (f : A -> list B) a l : flat_map f (a :: l) = f a ++ flat_map f l.
Proof. reflexivity. Qed.

Lemma ser_strip v : forall gap ind, option_map strip_ws (ser gap ind v) = ser "" "" v.
Proof.
  induction v as [v Hv|l IH|o IH] using jsval_ind'; intros gap ind.
  - destruct v as [| |[]|[]| | |]; try contradiction; reflexivity.
  - simpl. f_equal. rewrite strip_wrap by reflexivity. f_equal.
    rewrite map_map. induction IH as [|x l Hx _ IHl]; [reflexivity|].
    simpl. f_equal; [|exact IHl].
    specialize (Hx gap (ind ++ gap)%string).
    destruct (ser gap (ind ++ gap)%string x) as [t|]; simpl in Hx.
    + rewrite <- Hx. reflexivity.
    + rewrite <- Hx. reflexivity.
  - rewrite !ser_obj. cbn [option_map]. f_equal. rewrite strip_wrap by reflexivity. f_equal.
    induction IH as [|[k x] o Hx _ IHo]; [reflexivity|].
    rewrite !flat_map_cons1, map_app. f_equal; [|exact IHo].
    specialize (Hx gap (ind ++ gap)%string). simpl in Hx. unfold ser_member. simpl snd.
    change ("" ++ "")%string with "". simpl fst.
    destruct (ser gap (ind ++ gap)%string x) as [t|]; simpl in Hx.
    + rewrite <- Hx. simpl. f_equal. rewrite strip_ws_app.
      destruct (String.eqb gap ""); reflexivity.
    + rewrite <- Hx. reflexivity.
Qed.

(** The pretty form of [toJSON] is its compact form with whitespace
    lexemes inserted, and the compact form contains none. *)
Theorem toJSON_pretty_is_compact_plus_ws (d : jsval) :
  option_map strip_ws (toJSON d true) = toJSON d false /\
  option_map strip_ws (toJSON d false) = toJSON d false.
Proof.
  unfold toJSON, JSON_stringify. split; rewrite ser_strip; reflexivity.
Qed.


(** [JSON.parse] of [JSON.stringify(v, null, space)] gives back [norm v];
    [JSON.stringify] produces nothing exactly for [undefined]. *)
Theorem JSON_stringify_parse (v : jsval) (space : option nat) :
  match JSON_stringify v space with
  | Some txt => JSON_parse txt = Some (norm v)
  | None => v = JUndefined
  end.
Proof. exact (stringify_parse v space). Qed.

(** [validate] never throws on a document made by [createTask]. *)
Theorem createTask_validate_total (options : CreateTaskOptions) (generated_id : string) :
  exists errors, validate (createTask options generated_id) = Ok errors.
Proof. exact (createTask_validate_ok options generated_id). Qed.

(** [validate] throws exactly on objects whose [delivery], [output] or
    [on_failure] property is [null], and then only a TypeError. *)
Theorem validate_throws_iff (t : jsval) :
  (forall e, validate t = Throw e -> exists m, e = TypeError m) /\
  ((exists e, validate t = Throw e) <->
   exists o, t = JObj o /\
     (prop o "delivery" = JNull \/ prop o "output" = JNull \/ prop o "on_failure" = JNull)).
Proof. exact (validate_throws_char t). Qed.

Lemma subseq_nil_l {A} (l : list A) : subseq [] l.
Proof. induction l; constructor; assumption. Qed.

Lemma err_eqb_eq a b : err_eqb a b = true -> a = b.
Proof.
  destruct a, b. unfold err_eqb. simpl. intros H. apply andb_true_iff in H as [H1 H2].
  apply String.eqb_eq in H1, H2. subst. reflexivity.
Qed.

Lemma subseqb_sound l1 l2 : subseqb l1 l2 = true -> subseq l1 l2.
Proof.
  revert l1; induction l2 as [|y l2 IH]; intros [|x l1] H; simpl in H;
    try discriminate; try apply subseq_nil_l.
  destruct (err_eqb x y) eqn:E.
  - apply err_eqb_eq in E. subst. apply subseq_take. apply IH. exact H.
  - apply subseq_skip. apply IH. exact H.
Qed.

Lemma subseq_app {A} (a b c d : list A) : subseq a c -> subseq b d -> subseq (a ++ b) (c ++ d).
Proof.
  intros H1 H2. induction H1; simpl; [exact H2|apply subseq_skip; assumption|apply subseq_take; assumption].
Qed.

Lemma subseq_nodup_map {A B} (f : A -> B) l1 l2 :
  subseq l1 l2 -> NoDup (map f l2) -> NoDup (map f l1).
Proof.
  induction 1 as [|x l1 l2 Hs IH|x l1 l2 Hs IH]; simpl; intros Hnd; [constructor| |].
  - inversion Hnd; auto.
  - inversion Hnd as [|? ? Hn Hd]; subst. constructor; [|auto].
    intros Hin. apply Hn. apply in_map_iff in Hin as [y [<- Hy]].
    apply in_map. clear -Hs Hy. induction Hs; [assumption|right; auto|].
    destruct Hy as [->|Hy]; [left; reflexivity|right; auto].
Qed.

Ltac block_sub_proof :=
  unfold block_sub;
  repeat (unfold bind; simpl; rewrite ?pushif_app;
          match goal with
          | |- context [get ?v ?k] => destruct (get v k)
          | |- context [is_undefined ?v] => destruct (is_undefined v)
          | |- context [String.eqb ?a ?b] => destruct (String.eqb a b)
          | |- context [is_str ?v ?s] => destruct (is_str v s)
          | |- context [includes ?l ?v] => destruct (includes l v)
          | |- context [truthy ?v] => destruct (truthy v)
          | |- context [not_object ?v] => destruct (not_object v)
          | |- context [not_nonempty_string ?v] => destruct (not_nonempty_string v)
          end);
  unfold push; simpl; try exact I; apply subseqb_sound; reflexivity.

Lemma check_iap_version_sub t : block_sub [err_version] (check_iap_version t []).
Proof. unfold check_iap_version; block_sub_proof. Qed.
Lemma check_task_id_sub t : block_sub [err_task_id] (check_task_id t []).
Proof. unfold check_task_id; block_sub_proof. Qed.
Lemma check_sender_sub t : block_sub [err_sender; err_agent_id] (check_sender t []).
Proof. unfold check_sender; block_sub_proof. Qed.
Lemma check_task_sub t : block_sub [err_task; err_intent] (check_task t []).
Proof. unfold check_task; block_sub_proof. Qed.
Lemma check_delivery_sub t :
  block_sub [err_delivery; err_method; err_webhook; err_email] (check_delivery t []).
Proof. unfold check_delivery; block_sub_proof. Qed.
Lemma check_output_sub t : block_sub [err_output; err_format] (check_output t []).
Proof. unfold check_output; block_sub_proof. Qed.
Lemma check_on_failure_sub t : block_sub [err_on_failure; err_action] (check_on_failure t []).
Proof. unfold check_on_failure; block_sub_proof. Qed.

Lemma validate_subseq t es : validate t = Ok es -> subseq es error_catalogue.
Proof.
  destruct (not_object t) eqn:Hno.
  - unfold validate. rewrite Hno. intros [= <-]. apply subseqb_sound. reflexivity.
  - rewrite validate_split by exact Hno.
    pose proof (check_iap_version_sub t) as B1.
    pose proof (check_task_id_sub t) as B2.
    pose proof (check_sender_sub t) as B3.
    pose proof (check_task_sub t) as B4.
    pose proof (check_delivery_sub t) as B5.
    pose proof (check_output_sub t) as B6.
    pose proof (check_on_failure_sub t) as B7.
    destruct (check_iap_version t []) as [p1|]; [|discriminate]; simpl.
    destruct (check_task_id t []) as [p2|]; [|discriminate]; simpl.
    destruct (check_sender t []) as [p3|]; [|discriminate]; simpl.
    destruct (check_task t []) as [p4|]; [|discriminate]; simpl.
    destruct (check_delivery t []) as [d|]; [|discriminate]; simpl.
    destruct (check_output t []) as [op|]; [|discriminate]; simpl.
    destruct (check_on_failure t []) as [f|]; [|discriminate]; simpl.
    intros [= <-]. simpl in *.
    apply subseq_skip.
    change (subseq (p1 ++ p2 ++ p3 ++ p4 ++ d ++ op ++ f)
              ([err_version] ++ [err_task_id] ++ [err_sender; err_agent_id] ++
               [err_task; err_intent] ++ [err_delivery; err_method; err_webhook; err_email] ++
               [err_output; err_format] ++ [err_on_failure; err_action])).
    repeat apply subseq_app; assumption.
Qed.

(** The errors [validate] reports appear in a fixed order, that of
    [error_catalogue], each at most once, with distinct paths. *)
Theorem validate_errors_ordered (t : jsval) (errors : list IAPValidationError) :
  validate t = Ok errors ->
  subseq errors error_catalogue /\ NoDup (map path errors).
Proof.
  intros H. pose proof (validate_subseq t errors H) as Hs. split; [exact Hs|].
  apply (subseq_nodup_map path _ _ Hs).
  repeat constructor; simpl; intuition discriminate.
Qed.

Lemma validate_errors_ordered_witness :
  subseq [err_task_id; err_delivery; err_format] error_catalogue /\
  NoDup (map path [err_task_id; err_delivery; err_format]).
Proof.
  apply (validate_errors_ordered
           (JObj [("iap_version", JStr "0.2"); ("task_id", JStr "");
                  ("sender", JObj [("agent_id", JStr "a")]);
                  ("task", JObj [("intent", JStr "x")]);
                  ("delivery", JStr "sync"); ("output", JObj [])])).
  reflexivity.
Defined.

(** The JSON form of a [createTask] document has the keys [iap_version],
    [task_id], [sender] and [task], and each optional part only when it
    was given, in declaration order. *)
Theorem createTask_wire_keys (options : CreateTaskOptions) (generated_id : string)
    (space : option nat) :
  exists txt o,
    JSON_stringify (createTask options generated_id) space = Some txt /\
    JSON_parse txt = Some (JObj o) /\
    keys o = ["iap_version"; "task_id"; "sender"]
             ++ match opt_delivery options with Some _ => ["delivery"] | None => [] end
             ++ ["task"]
             ++ match opt_constraints options with Some _ => ["constraints"] | None => [] end
             ++ match opt_success_criteria options with
                | Some _ => ["success_criteria"] | None => [] end
             ++ match opt_output options with Some _ => ["output"] | None => [] end
             ++ match opt_on_failure options with Some _ => ["on_failure"] | None => [] end.
Proof.
  pose proof (stringify_parse (createTask options generated_id) space) as H.
  destruct (JSON_stringify (createTask options generated_id) space) as [txt|];
    [|discriminate H].
  unfold createTask in H |- *. rewrite norm_obj in H.
  eexists txt, _. split; [reflexivity|]. split; [exact H|].
  destruct options as [tid s dl tk c sc op f]; simpl.
  destruct dl, c, sc, op, f; reflexivity.
Qed.
